(** * Blackjack round engine: DeckService and BlackjackService

    A shallow embedding of the two services of the backend implementation
    plan (`src/services/DeckService.js`, `src/services/BlackjackService.js`)
    and the properties of the round engine proved about them, followed by
    what their callers make of a round: the statistics `GameService` keeps
    and the banner the frontend's `GameResult` component shows.

    Conventions of the embedding.
    - A JavaScript array is a [list]; an array that a method mutates in
      place ([splice], [push]) is threaded explicitly: the method's model
      returns the array's new content next to its result.
    - A method either returns or throws: its model lives in [outcome].
    - Card values and scores are integers ([Z]); the states the engine
      receives have the shape [{ suit, rank, value }] for a card, with an
      integer [value].  [NaN], which only [parseInt] can produce here, is
      [None] in the result of [parseInt] and [getCardValue].
    - [Math.random] is an oracle: the k-th call is answered from a function
      [rnd : nat -> nat], every theorem about a shuffled deck quantifies
      over it. *)

From Stdlib Require Import ZArith Lia Ascii String.
From stdpp Require Import base tactics option list strings gmap.

(** ** JavaScript outcomes *)

Module JS.

(** [TypeError] is what the engine raises when it reads a property of
    [undefined].  The other two errors are the ones of the specification's
    taxonomy; no method of the source raises them. *)
Inductive error : Type :=
  | TypeError
  | InsufficientCardsError
  | InvalidActionError.

Inductive outcome (A : Type) : Type :=
  | Returns (a : A)
  | Throws (e : error).
Arguments Returns {A} a.
Arguments Throws {A} e.

Definition bind {A B : Type} (m : outcome A) (k : A -> outcome B) : outcome B :=
  match m with
  | Returns a => k a
  | Throws e => Throws e
  end.

#[global] Instance outcome_ret : MRet outcome := @Returns.
#[global] Instance outcome_bind : MBind outcome := fun A B k m => bind m k.

#[global] Instance error_eq_dec : EqDecision error.
Proof. solve_decision. Defined.

(** *** parseInt, radix argument absent

    Leading white space is skipped, one sign is read, a [0x]/[0X] prefix
    switches to radix 16, then the longest prefix of digits is the number;
    no digit at all is [NaN] ([None]).  Strings are byte strings here, so
    the white space is the ASCII part of the ECMAScript set. *)

Definition isWhiteSpace (c : ascii) : bool :=
  let n := nat_of_ascii c in
  (n =? 32)%nat || (n =? 9)%nat || (n =? 10)%nat || (n =? 11)%nat
  || (n =? 12)%nat || (n =? 13)%nat.

Fixpoint trimStart (s : string) : string :=
  match s with
  | String c s' => if isWhiteSpace c then trimStart s' else s
  | EmptyString => s
  end.

Definition digitValue (c : ascii) : option Z :=
  let n := Z.of_nat (nat_of_ascii c) in
  if (48 <=? n)%Z && (n <=? 57)%Z then Some (n - 48)%Z
  else if (97 <=? n)%Z && (n <=? 122)%Z then Some (n - 87)%Z
  else if (65 <=? n)%Z && (n <=? 90)%Z then Some (n - 55)%Z
  else None.

Definition radixDigit (R : Z) (c : ascii) : option Z :=
  match digitValue c with
  | Some d => if (d <? R)%Z then Some d else None
  | None => None
  end.

(** The digits are read left to right; [acc] is [None] until the first
    digit has been seen. *)
Fixpoint parseDigits (R : Z) (s : string) (acc : option Z) : option Z :=
  match s with
  | String c s' =>
      match radixDigit R c with
      | Some d => parseDigits R s' (Some (from_option id 0 acc * R + d)%Z)
      | None => acc
      end
  | EmptyString => acc
  end.

Definition stripSign (s : string) : Z * string :=
  match s with
  | String "-"%char s' => ((-1)%Z, s')
  | String "+"%char s' => (1%Z, s')
  | _ => (1%Z, s)
  end.

Definition stripPrefix (s : string) : Z * string :=
  match s with
  | String "0"%char (String "x"%char s') => (16%Z, s')
  | String "0"%char (String "X"%char s') => (16%Z, s')
  | _ => (10%Z, s)
  end.

Definition parseInt (s : string) : option Z :=
  let '(sign, s1) := stripSign (trimStart s) in
  let '(R, s2) := stripPrefix s1 in
  (fun mathInt => sign * mathInt)%Z <$> parseDigits R s2 None.

End JS.

Import JS.

(** ** DeckService *)

Module DeckService.

Record Card : Type := mkCard { suit : string; rank : string; value : Z }.

#[global] Instance Card_eq_dec : EqDecision Card.
Proof. solve_decision. Defined.

(** The constructor's two tables. *)
Definition suits : list string := ["hearts"; "diamonds"; "clubs"; "spades"].
Definition ranks : list string :=
  ["A"; "2"; "3"; "4"; "5"; "6"; "7"; "8"; "9"; "10"; "J"; "Q"; "K"].

(** [getCardValue(rank)]: an Ace counts 11 at first, a face card 10, any
    other rank is what [parseInt] reads. *)
Definition getCardValue (rank : string) : option Z :=
  if decide (rank = "A") then Some 11%Z
  else if decide (rank ∈ ["J"; "Q"; "K"]) then Some 10%Z
  else parseInt rank.

(** The object literal [{ suit, rank, value }] of [createDeck]'s inner
    loop.  The value is the number [getCardValue] returned; [NaN] cannot be
    held by an integer field, and [getCardValue_ranks] below shows that no
    rank of [ranks] yields it. *)
Definition newCard (suit rank : string) : Card :=
  {| suit := suit; rank := rank; value := default 0%Z (getCardValue rank) |}.

(** The two nested [for ... of] loops: every suit in order, and within it
    every rank in order, pushed at the end of [deck]. *)
Definition orderedDeck : list Card :=
  flat_map (fun suit => map (fun rank => newCard suit rank) ranks) suits.

(** The destructuring swap
    [[shuffled[i], shuffled[j]] = [shuffled[j], shuffled[i]]]: both
    elements are read, then [shuffled[i]] and [shuffled[j]] are written in
    that order.  In the loop [j <= i < shuffled.length], so both reads
    succeed. *)
Definition swap {A : Type} (i j : nat) (shuffled : list A) : list A :=
  match shuffled !! j, shuffled !! i with
  | Some xj, Some xi => <[j := xi]> (<[i := xj]> shuffled)
  | _, _ => shuffled
  end.

(** [Math.floor(Math.random() * (i + 1))] is an integer of [0..i]; the
    oracle's k-th answer is reduced into that range. *)
Definition randomIndex (rnd : nat -> nat) (k i : nat) : nat :=
  rnd k mod (i + 1).

(** The loop [for (let i = shuffled.length - 1; i > 0; i--)], with [k] the
    number of calls to [Math.random] made so far. *)
Fixpoint shuffleLoop {A : Type} (rnd : nat -> nat) (k i : nat)
    (shuffled : list A) : list A :=
  match i with
  | O => shuffled
  | S i' =>
      let j := randomIndex rnd k i in
      shuffleLoop rnd (S k) i' (swap i j shuffled)
  end.

Definition shuffleDeck {A : Type} (rnd : nat -> nat) (deck : list A) : list A :=
  shuffleLoop rnd 0 (length deck - 1) deck.

Definition createDeck (rnd : nat -> nat) : list Card :=
  shuffleDeck rnd orderedDeck.

(** [dealCards(deck, count)] is [deck.splice(0, count)]: the removed
    elements are returned and [deck] keeps the rest.  [splice] clamps the
    count into [0..deck.length] and never throws.  The result is the pair
    (cards dealt, content of [deck] after the call). *)
Definition dealCards (deck : list Card) (count : Z)
    : outcome (list Card * list Card) :=
  Returns (take (Z.to_nat count) deck, drop (Z.to_nat count) deck).

End DeckService.

Import DeckService.

(** ** BlackjackService *)

Module BlackjackService.

Local Open Scope Z_scope.

Definition DEALER_STAND_THRESHOLD : Z := 17.

Record GameState : Type := mkGameState {
  deck : list Card;
  playerHand : list Card;
  dealerHand : list Card;
  playerScore : Z;
  dealerScore : Z;
  isPlayerTurn : bool;
  isGameOver : bool;
  gameStatus : string
}.

(** *** calculateHandScore *)

(** The [for ... of] loop: [score += card.value] and
    [if (card.rank === 'A') aceCount++], from [(0, 0)]. *)
Definition sumStep (acc : Z * nat) (card : Card) : Z * nat :=
  let '(score, aceCount) := acc in
  ((score + value card)%Z,
   if decide (rank card = "A") then S aceCount else aceCount).

Definition sumHand (hand : list Card) : Z * nat :=
  foldl sumStep (0, O) hand.

(** The loop [while (score > 21 && aceCount > 0) { score -= 10; aceCount--; }]. *)
Fixpoint adjustAces (score : Z) (aceCount : nat) : Z :=
  match aceCount with
  | O => score
  | S aceCount' =>
      if 21 <? score then adjustAces (score - 10) aceCount' else score
  end.

Definition calculateHandScore (hand : list Card) : Z :=
  let '(score, aceCount) := sumHand hand in
  adjustAces score aceCount.

(** *** startNewGame *)

Definition startNewGame (rnd : nat -> nat) : outcome GameState :=
  let deck0 := createDeck rnd in
  '(playerHand1, deck1) ← dealCards deck0 2;
  '(dealerHand1, deck2) ← dealCards deck1 2;
  Returns {| deck := deck2;
             playerHand := playerHand1;
             dealerHand := dealerHand1;
             playerScore := calculateHandScore playerHand1;
             dealerScore := calculateHandScore dealerHand1;
             isPlayerTurn := true;
             isGameOver := false;
             gameStatus := "active" |}.

(** *** playerHit

    [dealCards(deck, 1)[0]] is [undefined] on an empty deck; it is pushed on
    the hand all the same, and [calculateHandScore] then throws a
    [TypeError] when it reads [card.value].  Otherwise the returned object
    is the spread of [gameState] with four fields replaced; its [deck] and
    [playerHand] are the very arrays of [gameState], mutated. *)
Definition playerHit (gameState : GameState) : outcome GameState :=
  '(dealt, deck') ← dealCards (deck gameState) 1;
  match dealt !! O with
  | None => Throws TypeError
  | Some newCard =>
      let playerHand' := playerHand gameState ++ [newCard] in
      let playerScore' := calculateHandScore playerHand' in
      let '(isGameOver', gameStatus') :=
        if 21 <? playerScore' then (true, "player_bust"%string)
        else (false, "active"%string) in
      Returns {| deck := deck';
                 playerHand := playerHand';
                 dealerHand := dealerHand gameState;
                 playerScore := playerScore';
                 dealerScore := dealerScore gameState;
                 isPlayerTurn := isPlayerTurn gameState;
                 isGameOver := isGameOver';
                 gameStatus := gameStatus' |}
  end.

(** What the caller's own [gameState] object holds once [playerHit] has
    returned: the two arrays were mutated in place, the scalar fields were
    not touched.  (On an empty deck the call throws after [push] has put
    [undefined] on the hand, which a [list Card] does not hold; the
    definition is used for returning calls only.) *)
Definition playerHit_argument_after (gameState : GameState) : GameState :=
  {| deck := drop 1 (deck gameState);
     playerHand := playerHand gameState ++ take 1 (deck gameState);
     dealerHand := dealerHand gameState;
     playerScore := playerScore gameState;
     dealerScore := dealerScore gameState;
     isPlayerTurn := isPlayerTurn gameState;
     isGameOver := isGameOver gameState;
     gameStatus := gameStatus gameState |}.

(** *** playerStand *)

(** The dealer's loop
    [while (dealerScore < this.DEALER_STAND_THRESHOLD) { ... }], on the
    triple (deck, dealerHand, dealerScore).  Every turn takes one card off
    the deck, so the deck is the structural argument; on an empty deck the
    turn pushes [undefined] and [calculateHandScore] throws.
    [dealerLoop_unfold] states the turn through [dealCards(deck, 1)[0]] as
    the source has it. *)
Fixpoint dealerLoop (cards dealerHand0 : list Card) (dealerScore0 : Z)
    {struct cards} : outcome (list Card * list Card * Z) :=
  if dealerScore0 <? DEALER_STAND_THRESHOLD then
    match cards with
    | [] => Throws TypeError
    | newCard :: cards' =>
        let dealerHand' := dealerHand0 ++ [newCard] in
        dealerLoop cards' dealerHand' (calculateHandScore dealerHand')
    end
  else Returns (cards, dealerHand0, dealerScore0).

(** The [if / else if] chain after the loop. *)
Definition outcomeStatus (dealerScore0 playerScore0 : Z) : string :=
  if 21 <? dealerScore0 then "dealer_bust"
  else if playerScore0 <? dealerScore0 then "dealer_win"
  else if dealerScore0 <? playerScore0 then "player_win"
  else "tie".

Definition playerStand (gameState : GameState) : outcome GameState :=
  let dealerScore0 := calculateHandScore (dealerHand gameState) in
  '(deck', dealerHand', dealerScore') ←
    dealerLoop (deck gameState) (dealerHand gameState) dealerScore0;
  Returns {| deck := deck';
             playerHand := playerHand gameState;
             dealerHand := dealerHand';
             playerScore := playerScore gameState;
             dealerScore := dealerScore';
             isPlayerTurn := false;
             isGameOver := true;
             gameStatus := outcomeStatus dealerScore' (playerScore gameState) |}.

(** *** determineGameResult: [None] is the [null] of the [default] case. *)
Definition determineGameResult (gameStatus0 : string) : option string :=
  if decide (gameStatus0 = "player_bust" ∨ gameStatus0 = "dealer_win")
  then Some "loss"%string
  else if decide (gameStatus0 = "dealer_bust" ∨ gameStatus0 = "player_win")
  then Some "win"%string
  else if decide (gameStatus0 = "tie") then Some "tie"%string
  else None.

End BlackjackService.

Import BlackjackService.

Local Open Scope Z_scope.

(** ** GameService: what a finished round does to the statistics

    [finalizeGame] classifies the round with [determineGameResult], updates
    the row of the [Game] table, finds or creates the user's row of the
    [UserStats] table, counts the round in it and saves it, all in one
    transaction.  The embedding follows the [UserStats] table, a finite map
    from [user_id] to the row's counters, on a database that raises no
    error; the [Game] table is not part of it.  [win_percentage] is a
    floating-point quotient: the computation [(wins / total_games) * 100]
    is the parameter [percentage], and [zero] is the [0] of the defaults. *)

Module GameService.

Section Stats.

Context {number : Type} (percentage : Z -> Z -> number) (zero : number).

Record UserStats : Type := mkUserStats {
  total_games : Z;
  wins : Z;
  losses : Z;
  ties : Z;
  win_percentage : number
}.

(** The [defaults] of [UserStats.findOrCreate]. *)
Definition defaultStats : UserStats :=
  {| total_games := 0; wins := 0; losses := 0; ties := 0;
     win_percentage := zero |}.

(** The update of the row between [findOrCreate] and [save]:
    [total_games += 1], then the [if (result === 'win') ... else if
    (result === 'loss') ... else ...] chain, then [win_percentage]. *)
Definition recordResult (result : option string) (userStats : UserStats)
    : UserStats :=
  let total_games' := (total_games userStats + 1)%Z in
  let '(wins', losses', ties') :=
    if decide (result = Some "win"%string)
    then ((wins userStats + 1)%Z, losses userStats, ties userStats)
    else if decide (result = Some "loss"%string)
    then (wins userStats, (losses userStats + 1)%Z, ties userStats)
    else (wins userStats, losses userStats, (ties userStats + 1)%Z) in
  {| total_games := total_games';
     wins := wins';
     losses := losses';
     ties := ties';
     win_percentage := percentage wins' total_games' |}.

(** [finalizeGame(gameId, userId, gameState)] on the [UserStats] table. *)
Definition finalizeGame (userId : Z) (gameState : GameState)
    (table : gmap Z UserStats) : gmap Z UserStats :=
  let result := determineGameResult (gameStatus gameState) in
  let userStats := default defaultStats (table !! userId) in
  <[userId := recordResult result userStats]> table.

(** [playerHit(gameId, userId, gameState)]: the round is finalized only if
    the hit has ended it. *)
Definition playerHit (userId : Z) (gameState : GameState)
    (table : gmap Z UserStats) : outcome (GameState * gmap Z UserStats) :=
  updatedState ← BlackjackService.playerHit gameState;
  Returns (updatedState,
           if isGameOver updatedState
           then finalizeGame userId updatedState table
           else table).

(** [playerStand(gameId, userId, gameState)]: the round is always
    finalized. *)
Definition playerStand (userId : Z) (gameState : GameState)
    (table : gmap Z UserStats) : outcome (GameState * gmap Z UserStats) :=
  updatedState ← BlackjackService.playerStand gameState;
  Returns (updatedState, finalizeGame userId updatedState table).

End Stats.

End GameService.

(** ** The frontend's view of a round *)

Module Frontend.

(** The [GameResult] component: [None] is the [null] it renders for no
    status, for 'active' and for an unknown status; otherwise the pair of
    its [resultClass] and its [message]. *)
Definition GameResult (gameStatus : string) : option (string * string) :=
  if decide (gameStatus = "" \/ gameStatus = "active") then None
  else if decide (gameStatus = "player_bust")
  then Some ("result-lose", "Bust! You went over 21.")
  else if decide (gameStatus = "dealer_bust")
  then Some ("result-win", "Dealer busts! You win!")
  else if decide (gameStatus = "player_win")
  then Some ("result-win", "You win!")
  else if decide (gameStatus = "dealer_win")
  then Some ("result-lose", "Dealer wins.")
  else if decide (gameStatus = "tie")
  then Some ("result-tie", "It's a tie!")
  else None.

End Frontend.

(** * Vocabulary of the properties *)

(** ** Hands *)

(** The sum of the cards' assigned values. *)
Definition handTotal (hand : list Card) : Z :=
  foldr (fun card acc => value card + acc) 0 hand.

(** The number of Aces a hand holds. *)
Definition aceCards (hand : list Card) : nat :=
  length (filter (fun card => rank card = "A"%string) hand).

(** The hand with every Ace counted as 1. *)
Definition hardTotal (hand : list Card) : Z :=
  handTotal hand - 10 * Z.of_nat (aceCards hand).

(** A card with an assigned value: 11 on an Ace, at least 1 on any other
    rank.  The cards [createDeck] makes are of this kind. *)
Definition assignedValue (card : Card) : Prop :=
  if decide (rank card = "A"%string) then value card = 11
  else 1 <= value card.

#[global] Instance assignedValue_dec (card : Card) : Decision (assignedValue card).
Proof. unfold assignedValue. destruct (decide _); apply _. Defined.

(** A card as [createDeck] makes them: 11 on an Ace, from 2 to 10 on any
    other rank. *)
Definition deckCard (card : Card) : Prop :=
  if decide (rank card = "A"%string) then value card = 11
  else 2 <= value card <= 10.

#[global] Instance deckCard_dec (card : Card) : Decision (deckCard card).
Proof. unfold deckCard. destruct (decide _); apply _. Defined.

(** ** Decks *)

(** The specification's fixed rank-to-value table. *)
Definition rankValueTable : list (string * Z) :=
  [("A", 11); ("2", 2); ("3", 3); ("4", 4); ("5", 5); ("6", 6); ("7", 7);
   ("8", 8); ("9", 9); ("10", 10); ("J", 10); ("Q", 10); ("K", 10)]%string.

(** What identifies a card: its suit and its rank. *)
Definition face (card : Card) : string * string := (suit card, rank card).

(** How many cards of a fresh deck carry the value [v]: the four tens,
    Jacks, Queens and Kings share 10, every other value of [2..11] belongs
    to one rank in four suits. *)
Definition valueCopies (v : Z) : nat :=
  if decide (v = 10) then 16%nat
  else if decide (2 <= v <= 11) then 4%nat
  else 0%nat.

(** The cards of value [v] among [cards]. *)
Definition cardsOfValue (v : Z) (cards : list Card) : list Card :=
  filter (fun card => value card = v) cards.

(** ** Actions *)

(** The status pair [playerHit] computes from the new score. *)
Definition hitStatus (score : Z) : bool * string :=
  if 21 <? score then (true, "player_bust"%string)
  else (false, "active"%string).

(** The deck serves the dealer: some number of its cards, drawn in order,
    brings the dealer's hand to 17 or more. *)
Definition dealerServed (cards hand : list Card) : Prop :=
  exists k : nat,
    (k <= length cards)%nat /\ 17 <= calculateHandScore (hand ++ take k cards).

(** The state of the loop after [k] draws. *)
Definition afterDraws (k : nat) (cards hand : list Card)
    : list Card * list Card * Z :=
  (drop k cards, hand ++ take k cards,
   calculateHandScore (hand ++ take k cards)).

(** [k] is the number of draws the loop makes: the first count at which the
    dealer's score is no longer below 17. *)
Definition firstStand (k : nat) (cards hand : list Card) : Prop :=
  (k <= length cards)%nat
  /\ (forall j : nat, (j < k)%nat ->
        calculateHandScore (hand ++ take j cards) < 17)
  /\ 17 <= calculateHandScore (hand ++ take k cards).

(** ** Rounds *)

(** The states of a round: the one [startNewGame] returns, and every state
    a returning [playerHit] or [playerStand] makes of a state of the round.
    The source puts no guard on either action, so any sequence counts. *)
Inductive reachable : GameState -> Prop :=
  | reachable_start (rnd : nat -> nat) (st : GameState) :
      startNewGame rnd = Returns st -> reachable st
  | reachable_hit (st st' : GameState) :
      reachable st -> playerHit st = Returns st' -> reachable st'
  | reachable_stand (st st' : GameState) :
      reachable st -> playerStand st = Returns st' -> reachable st'.

(** Every card of the state, hands first. *)
Definition allCards (st : GameState) : list Card :=
  playerHand st ++ dealerHand st ++ deck st.

(** One step of a round deals a run of cards off the front of the deck onto
    the end of one hand and leaves the other hand alone. *)
Definition dealtTo (st st' : GameState) (dealt : list Card) : Prop :=
  deck st = dealt ++ deck st'
  /\ ((playerHand st' = playerHand st ++ dealt
       /\ dealerHand st' = dealerHand st)
      \/ (playerHand st' = playerHand st
          /\ dealerHand st' = dealerHand st ++ dealt)).

(** ** Statistics *)

(** The counters of a row add up, and none is negative. *)
Definition statsConsistent {number : Type}
    (userStats : @GameService.UserStats number) : Prop :=
  GameService.total_games userStats
  = GameService.wins userStats + GameService.losses userStats
    + GameService.ties userStats
  /\ 0 <= GameService.wins userStats
  /\ 0 <= GameService.losses userStats
  /\ 0 <= GameService.ties userStats.

(** The row [findOrCreate] yields for a user. *)
Definition statsOf {number : Type} (zero : number) (userId : Z)
    (table : gmap Z (@GameService.UserStats number))
    : @GameService.UserStats number :=
  default (GameService.defaultStats zero) (table !! userId).

(** ** States the properties are tried on *)

(** A hand of 18 about to draw a six. *)
Definition eighteen : GameState :=
  {| deck := [mkCard "clubs" "6" 6; mkCard "hearts" "2" 2];
     playerHand := [mkCard "spades" "K" 10; mkCard "hearts" "8" 8];
     dealerHand := [mkCard "diamonds" "9" 9; mkCard "clubs" "7" 7];
     playerScore := 18;
     dealerScore := 16;
     isPlayerTurn := true;
     isGameOver := false;
     gameStatus := "active" |}.

(** A round the dealer has won, 18 against 15, with one card left. *)
Definition dealerWon : GameState :=
  {| deck := [mkCard "clubs" "3" 3];
     playerHand := [mkCard "spades" "K" 10; mkCard "hearts" "5" 5];
     dealerHand := [mkCard "diamonds" "10" 10; mkCard "clubs" "8" 8];
     playerScore := 15;
     dealerScore := 18;
     isPlayerTurn := false;
     isGameOver := true;
     gameStatus := "dealer_win" |}.

(** The player stands on 20; the dealer holds 12 and is about to draw an
    eight. *)
Definition standOnTwenty : GameState :=
  {| deck := [mkCard "hearts" "8" 8; mkCard "spades" "4" 4];
     playerHand := [mkCard "spades" "K" 10; mkCard "hearts" "Q" 10];
     dealerHand := [mkCard "diamonds" "10" 10; mkCard "clubs" "2" 2];
     playerScore := 20;
     dealerScore := 12;
     isPlayerTurn := true;
     isGameOver := false;
     gameStatus := "active" |}.

(** The dealer on a soft 16, over seventeen cards of the deck. *)
Definition softSixteen : GameState :=
  {| deck := [mkCard "clubs" "K" 10; mkCard "clubs" "2" 2;
              mkCard "clubs" "3" 3; mkCard "clubs" "4" 4;
              mkCard "clubs" "5" 5; mkCard "clubs" "6" 6;
              mkCard "clubs" "7" 7; mkCard "clubs" "8" 8;
              mkCard "clubs" "9" 9; mkCard "clubs" "10" 10;
              mkCard "spades" "2" 2; mkCard "spades" "3" 3;
              mkCard "spades" "4" 4; mkCard "spades" "5" 5;
              mkCard "spades" "6" 6; mkCard "spades" "7" 7;
              mkCard "spades" "8" 8];
     playerHand := [mkCard "spades" "K" 10; mkCard "hearts" "8" 8];
     dealerHand := [mkCard "hearts" "A" 11; mkCard "diamonds" "5" 5];
     playerScore := 18;
     dealerScore := 16;
     isPlayerTurn := true;
     isGameOver := false;
     gameStatus := "active" |}.

(** A player who went over 21 on 25, with cards left in the deck. *)
Definition bustedPlayer : GameState :=
  {| deck := [mkCard "clubs" "3" 3; mkCard "spades" "7" 7];
     playerHand := [mkCard "spades" "K" 10; mkCard "hearts" "Q" 10;
                    mkCard "hearts" "5" 5];
     dealerHand := [mkCard "diamonds" "10" 10; mkCard "clubs" "8" 8];
     playerScore := 25;
     dealerScore := 18;
     isPlayerTurn := true;
     isGameOver := true;
     gameStatus := "player_bust" |}.

(** The round a random source that always answers 0 starts. *)
Definition firstRound : GameState :=
  {| deck := drop 2 (drop 2 (createDeck (fun _ => O)));
     playerHand := take 2 (createDeck (fun _ => O));
     dealerHand := take 2 (drop 2 (createDeck (fun _ => O)));
     playerScore := calculateHandScore (take 2 (createDeck (fun _ => O)));
     dealerScore :=
       calculateHandScore (take 2 (drop 2 (createDeck (fun _ => O))));
     isPlayerTurn := true;
     isGameOver := false;
     gameStatus := "active" |}.

(** * Properties *)

Lemma Returns_inj {A : Type} (a b : A) : Returns a = Returns b -> a = b.
Proof. by intros [= ->]. Qed.

(** ** Hand scoring *)

Lemma handTotal_cons (c : Card) (h : list Card) :
  handTotal (c :: h) = value c + handTotal h.
Proof. reflexivity. Qed.

Lemma handTotal_app (h1 h2 : list Card) :
  handTotal (h1 ++ h2) = handTotal h1 + handTotal h2.
Proof.
  induction h1 as [|c h1 IH]; [reflexivity|].
  cbn [app]. rewrite !handTotal_cons, IH. lia.
Qed.

Lemma aceCards_app (h1 h2 : list Card) :
  aceCards (h1 ++ h2) = (aceCards h1 + aceCards h2)%nat.
Proof. unfold aceCards. by rewrite filter_app, length_app. Qed.

Lemma aceCards_cons (c : Card) (h : list Card) :
  aceCards (c :: h)
  = ((if decide (rank c = "A"%string) then 1 else 0) + aceCards h)%nat.
Proof.
  unfold aceCards. rewrite filter_cons. by destruct (decide _).
Qed.

Lemma foldl_sumStep (hand : list Card) (score : Z) (aceCount : nat) :
  foldl sumStep (score, aceCount) hand
  = (score + handTotal hand, (aceCount + aceCards hand)%nat).
Proof.
  revert score aceCount.
  induction hand as [|c hand IH]; intros score aceCount.
  - unfold handTotal, aceCards. simpl. f_equal; lia.
  - cbn [foldl sumStep]. rewrite IH, aceCards_cons, handTotal_cons.
    destruct (decide _); f_equal; lia.
Qed.

Lemma sumHand_eq (hand : list Card) :
  sumHand hand = (handTotal hand, aceCards hand).
Proof. unfold sumHand. rewrite foldl_sumStep. f_equal. Qed.

Lemma calculateHandScore_eq (hand : list Card) :
  calculateHandScore hand = adjustAces (handTotal hand) (aceCards hand).
Proof. unfold calculateHandScore. by rewrite sumHand_eq. Qed.

(** The [while] loop makes [k] reductions, where [k] is the first count at
    which the total is no longer above 21 or the Aces are used up. *)
Lemma adjustAces_reductions (aceCount : nat) (score : Z) :
  exists k : nat,
    (k <= aceCount)%nat
    /\ adjustAces score aceCount = score - 10 * Z.of_nat k
    /\ (forall j : nat, (j < k)%nat -> 21 < score - 10 * Z.of_nat j)
    /\ ((k < aceCount)%nat -> score - 10 * Z.of_nat k <= 21).
Proof.
  revert score. induction aceCount as [|n IH]; intros score.
  - exists O. simpl. repeat split; try lia.
  - simpl. destruct (Z.ltb_spec 21 score) as [Hgt|Hle].
    + destruct (IH (score - 10)) as (k & Hk & Heq & Hbefore & Hstop).
      exists (S k). repeat split.
      * lia.
      * rewrite Heq. lia.
      * intros [|j] Hj; [lia|]. specialize (Hbefore j). lia.
      * intros Hlt. lia.
    + exists O. repeat split; try lia.
Qed.

Lemma adjustAces_le (aceCount : nat) (score : Z) :
  adjustAces score aceCount <= score.
Proof.
  destruct (adjustAces_reductions aceCount score) as (k & _ & -> & _). lia.
Qed.

Lemma adjustAces_ge (aceCount : nat) (score : Z) :
  score - 10 * Z.of_nat aceCount <= adjustAces score aceCount.
Proof.
  destruct (adjustAces_reductions aceCount score) as (k & Hk & -> & _). lia.
Qed.

(** C1. [calculateHandScore] returns the sum of the cards' assigned values
    less 10 for each of [k] Aces, where the reductions are made one Ace at a
    time for as long as the running total exceeds 21 and an unreduced Ace
    remains: [k] is at most the number of Aces, the total was above 21
    before each of the [k] reductions, and the loop stopped short of the
    last Ace only on a total of at most 21.  In particular a hand without
    Aces scores its plain sum, and a hand above 21 with every Ace reduced
    scores that over-21 total. *)
Theorem calculateHandScore_spec (hand : list Card) :
  (exists k : nat,
      (k <= aceCards hand)%nat
      /\ calculateHandScore hand = handTotal hand - 10 * Z.of_nat k
      /\ (forall j : nat, (j < k)%nat -> 21 < handTotal hand - 10 * Z.of_nat j)
      /\ ((k < aceCards hand)%nat -> handTotal hand - 10 * Z.of_nat k <= 21))
  /\ (aceCards hand = O -> calculateHandScore hand = handTotal hand)
  /\ (21 < handTotal hand - 10 * Z.of_nat (aceCards hand) ->
      calculateHandScore hand = handTotal hand - 10 * Z.of_nat (aceCards hand)
      /\ 21 < calculateHandScore hand).
Proof.
  rewrite calculateHandScore_eq.
  destruct (adjustAces_reductions (aceCards hand) (handTotal hand))
    as (k & Hk & Heq & Hbefore & Hstop).
  split; [by exists k|]. split.
  - intros H0. rewrite Heq. lia.
  - intros Hbust. rewrite Heq.
    destruct (decide (k < aceCards hand)%nat) as [Hlt|Hge].
    + specialize (Hstop Hlt). lia.
    + assert (k = aceCards hand) as -> by lia. lia.
Qed.

(** The three hands of the specification's test list. *)
Example calculateHandScore_blackjack :
  calculateHandScore [mkCard "spades" "A" 11; mkCard "hearts" "K" 10] = 21.
Proof. reflexivity. Qed.

Example calculateHandScore_two_aces :
  calculateHandScore
    [mkCard "spades" "A" 11; mkCard "hearts" "A" 11; mkCard "clubs" "9" 9] = 21.
Proof. reflexivity. Qed.

Example calculateHandScore_bust :
  calculateHandScore
    [mkCard "spades" "K" 10; mkCard "hearts" "Q" 10; mkCard "clubs" "2" 2] = 22.
Proof. reflexivity. Qed.

(** ** The deck *)

Section Deck.

(** The random source: the answer to the k-th call of [Math.random]. *)
Context (rnd : nat -> nat).

(** No rank of the constructor's table makes [parseInt] answer [NaN]. *)
Lemma getCardValue_ranks :
  Forall (fun rank => is_Some (getCardValue rank)) ranks.
Proof. repeat constructor; vm_compute; eauto. Qed.

Lemma getCardValue_table :
  map (fun rank => (rank, getCardValue rank)) ranks
  = map (fun entry => (entry.1, Some entry.2)) rankValueTable.
Proof. reflexivity. Qed.

(** *** The shuffle permutes *)

Lemma randomIndex_le (k i : nat) :
  (randomIndex rnd k i <= i)%nat.
Proof.
  unfold randomIndex.
  pose proof (Nat.mod_upper_bound (rnd k) (i + 1)). lia.
Qed.

(** Every index of [0..i] is the answer of some oracle. *)
Lemma randomIndex_any (k i j : nat) :
  (j <= i)%nat -> randomIndex (fun _ => j) k i = j.
Proof. intros Hj. unfold randomIndex. apply Nat.mod_small. lia. Qed.

Lemma swap_length {A : Type} (i j : nat) (l : list A) :
  length (swap i j l) = length l.
Proof.
  unfold swap. destruct (l !! j), (l !! i); try done.
  by rewrite !length_insert.
Qed.

(** Within the array both reads of the swap succeed. *)
Lemma swap_in_range {A : Type} (i j : nat) (l : list A) :
  (i < length l)%nat -> (j <= i)%nat ->
  exists xi xj,
    l !! i = Some xi /\ l !! j = Some xj
    /\ swap i j l = <[j := xi]> (<[i := xj]> l).
Proof.
  intros Hi Hj.
  destruct (lookup_lt_is_Some_2 l i Hi) as [xi Hxi].
  destruct (lookup_lt_is_Some_2 l j ltac:(lia)) as [xj Hxj].
  exists xi, xj. unfold swap. by rewrite Hxi, Hxj.
Qed.

Lemma swap_Permutation {A : Type} (i j : nat) (l : list A) :
  swap i j l ≡ₚ l.
Proof.
  unfold swap.
  destruct (l !! j) as [xj|] eqn:Hj; [|done].
  destruct (l !! i) as [xi|] eqn:Hi; [|done].
  by apply Permutation_insert_swap.
Qed.

Lemma shuffleLoop_Permutation {A : Type} (i k : nat) (l : list A) :
  shuffleLoop rnd k i l ≡ₚ l.
Proof.
  revert k l. induction i as [|i IH]; intros k l; [done|].
  cbn [shuffleLoop]. rewrite IH. apply swap_Permutation.
Qed.

Lemma shuffleDeck_Permutation {A : Type} (l : list A) :
  shuffleDeck rnd l ≡ₚ l.
Proof. apply shuffleLoop_Permutation. Qed.

Lemma createDeck_Permutation : createDeck rnd ≡ₚ orderedDeck.
Proof. exact (shuffleDeck_Permutation orderedDeck). Qed.

Lemma createDeck_length : length (createDeck rnd) = 52%nat.
Proof. by rewrite createDeck_Permutation. Qed.

(** *** The ordered deck, by evaluation *)

Lemma orderedDeck_faces : face <$> orderedDeck = list_prod suits ranks.
Proof. reflexivity. Qed.

Lemma orderedDeck_NoDup : NoDup (face <$> orderedDeck).
Proof. apply (bool_decide_unpack _). by vm_compute. Qed.

Lemma orderedDeck_once :
  Forall (fun p : string * string =>
            length (filter (fun card => face card = p) orderedDeck) = 1%nat)
         (list_prod suits ranks).
Proof. apply (bool_decide_unpack _). by vm_compute. Qed.

Lemma orderedDeck_values :
  Forall (fun card => getCardValue (rank card) = Some (value card)
                      /\ (rank card, value card) ∈ rankValueTable)
         orderedDeck.
Proof. apply (bool_decide_unpack _). by vm_compute. Qed.

(** C4. Whatever the random source answers, the deck [createDeck] returns
    has 52 cards, its (suit, rank) pairs are the 4 x 13 pairs of the two
    tables, each pair carried by exactly one card, and every card's value is
    the one [getCardValue] gives its rank, which is the fixed table: 11 for
    'A', 10 for 'J', 'Q' and 'K', the face value for a numeral. *)
Theorem createDeck_spec :
  length (createDeck rnd) = 52%nat
  /\ face <$> createDeck rnd ≡ₚ list_prod suits ranks
  /\ NoDup (face <$> createDeck rnd)
  /\ (forall s r : string, s ∈ suits -> r ∈ ranks ->
        length (filter (fun card => face card = (s, r)) (createDeck rnd))
        = 1%nat)
  /\ Forall (fun card => getCardValue (rank card) = Some (value card)
                         /\ (rank card, value card) ∈ rankValueTable)
            (createDeck rnd)
  /\ map (fun rank => (rank, getCardValue rank)) ranks
     = [("A", Some 11); ("2", Some 2); ("3", Some 3); ("4", Some 4);
        ("5", Some 5); ("6", Some 6); ("7", Some 7); ("8", Some 8);
        ("9", Some 9); ("10", Some 10); ("J", Some 10); ("Q", Some 10);
        ("K", Some 10)]%string.
Proof.
  pose proof createDeck_Permutation as Hperm.
  split; [by rewrite Hperm|].
  split; [by rewrite Hperm, orderedDeck_faces|].
  split; [rewrite Hperm; apply orderedDeck_NoDup|].
  split.
  - intros s r Hs Hr. rewrite Hperm.
    apply (proj1 (List.Forall_forall _ _) orderedDeck_once (s, r)).
    apply in_prod; by apply list_elem_of_In.
  - split; [rewrite Hperm; apply orderedDeck_values | reflexivity].
Qed.

(** *** Card values within a deck *)

Lemma orderedDeck_value_range :
  Forall (fun card => 2 <= value card <= 11) orderedDeck.
Proof. apply (bool_decide_unpack _). by vm_compute. Qed.

Lemma orderedDeck_value_counts :
  Forall (fun v => length (cardsOfValue v orderedDeck) = valueCopies v)
         [2; 3; 4; 5; 6; 7; 8; 9; 10; 11].
Proof. apply (bool_decide_unpack _). by vm_compute. Qed.

Lemma cardsOfValue_out_of_range (v : Z) (cards : list Card) :
  Forall (fun card => 2 <= value card <= 11) cards ->
  ~ (2 <= v <= 11) ->
  cardsOfValue v cards = [].
Proof.
  intros Hrange Hv. unfold cardsOfValue.
  induction Hrange as [|c cards Hc _ IH]; [done|].
  rewrite filter_cons. destruct (decide (value c = v)); [lia|done].
Qed.

Lemma orderedDeck_valueCopies (v : Z) :
  length (cardsOfValue v orderedDeck) = valueCopies v.
Proof.
  destruct (decide (2 <= v <= 11)) as [Hin|Hout].
  - pose proof orderedDeck_value_counts as Hcounts.
    apply (proj1 (List.Forall_forall _ _) Hcounts).
    assert (v = 2 \/ v = 3 \/ v = 4 \/ v = 5 \/ v = 6 \/ v = 7 \/ v = 8
            \/ v = 9 \/ v = 10 \/ v = 11) as Hv by lia.
    cbn [In]. intuition auto.
  - rewrite (cardsOfValue_out_of_range _ _ orderedDeck_value_range Hout).
    unfold valueCopies. destruct (decide (v = 10)); [lia|].
    by destruct (decide (2 <= v <= 11)).
Qed.

(** C10, as amended. Within a freshly created deck no card repeats: the
    cards at two distinct positions differ in suit or in rank.  Their values
    do repeat: 10 is the value of sixteen cards, and each of 2..9 and 11 the
    value of four. *)
Theorem createDeck_faces_distinct :
  (forall (i j : nat) (ci cj : Card),
      i <> j ->
      createDeck rnd !! i = Some ci ->
      createDeck rnd !! j = Some cj ->
      face ci <> face cj)
  /\ (forall v : Z,
        length (cardsOfValue v (createDeck rnd)) = valueCopies v).
Proof.
  pose proof createDeck_Permutation as Hperm. split.
  - intros i j ci cj Hij Hi Hj Hface.
    assert (NoDup (face <$> createDeck rnd)) as Hnodup
      by (rewrite Hperm; apply orderedDeck_NoDup).
    apply Hij. eapply NoDup_lookup; [exact Hnodup| |].
    + rewrite list_lookup_fmap, Hi. reflexivity.
    + rewrite list_lookup_fmap, Hj. simpl. by rewrite Hface.
  - intros v. unfold cardsOfValue. rewrite Hperm.
    apply orderedDeck_valueCopies.
Qed.

(** C10, as stated, fails: with a random source that always answers 0 the
    ten and the Jack of hearts lie at positions 8 and 9, both worth 10. *)
Lemma createDeck_values_repeat :
  ~ (forall (source : nat -> nat) (i j : nat) (ci cj : Card),
        i <> j ->
        createDeck source !! i = Some ci ->
        createDeck source !! j = Some cj ->
        value ci <> value cj).
Proof.
  intros Hclaim.
  apply (Hclaim (fun _ => O) 8%nat 9%nat
           (mkCard "hearts" "10" 10) (mkCard "hearts" "J" 10)).
  - lia.
  - by vm_compute.
  - by vm_compute.
  - reflexivity.
Qed.

End Deck.

(** ** Dealing *)

(** C5, as amended. [dealCards] never fails.  It splits the deck into the
    cards dealt and the rest the deck keeps; the number dealt is the count,
    clamped into [0..length]: a count within the deck deals exactly that
    many cards from the front and leaves the suffix, a count beyond the deck
    deals every remaining card and leaves the deck empty. *)
Theorem dealCards_spec (cards : list Card) (count : Z) :
  exists dealt rest : list Card,
    dealCards cards count = Returns (dealt, rest)
    /\ cards = dealt ++ rest
    /\ Z.of_nat (length dealt)
       = Z.min (Z.max 0 count) (Z.of_nat (length cards))
    /\ (0 <= count <= Z.of_nat (length cards) ->
        Z.of_nat (length dealt) = count
        /\ dealt = take (Z.to_nat count) cards
        /\ rest = drop (Z.to_nat count) cards)
    /\ (Z.of_nat (length cards) < count -> dealt = cards /\ rest = []).
Proof.
  exists (take (Z.to_nat count) cards), (drop (Z.to_nat count) cards).
  split; [reflexivity|]. split; [by rewrite take_drop|].
  split; [rewrite length_take; lia|]. split.
  - intros Hcount. split; [rewrite length_take; lia | done].
  - intros Hcount. split; [apply take_ge | apply drop_ge]; lia.
Qed.

(** C5, as stated, fails: asked for one card of an empty deck, [dealCards]
    returns no card and raises nothing. *)
Lemma dealCards_never_insufficient :
  ~ (forall (cards : list Card) (count : Z),
        Z.of_nat (length cards) < count ->
        dealCards cards count = Throws InsufficientCardsError).
Proof.
  intros Hclaim. specialize (Hclaim [] 1 ltac:(simpl; lia)). discriminate.
Qed.

(** ** Outcome of a round for the statistics *)

(** C9. [determineGameResult] is defined on every status: a player bust and
    a dealer win are a loss, a dealer bust and a player win are a win, a tie
    is a tie, and 'active', like any other string, has no result ([null]). *)
Theorem determineGameResult_spec :
  determineGameResult "player_bust" = Some "loss"%string
  /\ determineGameResult "dealer_win" = Some "loss"%string
  /\ determineGameResult "dealer_bust" = Some "win"%string
  /\ determineGameResult "player_win" = Some "win"%string
  /\ determineGameResult "tie" = Some "tie"%string
  /\ determineGameResult "active" = None
  /\ (forall status : string,
        determineGameResult status = None
        <-> status ∉ ["player_bust"; "dealer_win"; "dealer_bust";
                      "player_win"; "tie"]%string).
Proof.
  repeat (split; [reflexivity|]).
  intros status. unfold determineGameResult.
  rewrite !not_elem_of_cons.
  repeat (destruct (decide _) as [?|?]); split; intros; try discriminate;
    try tauto.
  repeat split; try tauto. apply not_elem_of_nil.
Qed.

(** ** Hit *)

(** On a deck with a first card, [playerHit] returns, and this is the
    object it returns. *)
Lemma playerHit_cons (gameState : GameState) (card : Card)
    (rest : list Card) :
  deck gameState = card :: rest ->
  playerHit gameState
  = Returns {| deck := rest;
               playerHand := playerHand gameState ++ [card];
               dealerHand := dealerHand gameState;
               playerScore :=
                 calculateHandScore (playerHand gameState ++ [card]);
               dealerScore := dealerScore gameState;
               isPlayerTurn := isPlayerTurn gameState;
               isGameOver :=
                 (hitStatus
                    (calculateHandScore (playerHand gameState ++ [card]))).1;
               gameStatus :=
                 (hitStatus
                    (calculateHandScore (playerHand gameState ++ [card]))).2
            |}.
Proof.
  intros Hdeck. unfold playerHit, hitStatus. rewrite Hdeck. simpl.
  by destruct (21 <? _).
Qed.

(** On an empty deck the card read is [undefined] and scoring the hand
    throws. *)
Lemma playerHit_nil (gameState : GameState) :
  deck gameState = [] -> playerHit gameState = Throws TypeError.
Proof. intros Hdeck. unfold playerHit. by rewrite Hdeck. Qed.

(** A hit that returned was made on a deck with a first card, and the state
    it returned is the one of [playerHit_cons]. *)
Ltac invert_playerHit H :=
  lazymatch type of H with
  | playerHit ?st = Returns ?st' =>
      let card := fresh "card" in
      let rest := fresh "rest" in
      let Hdeck := fresh "Hdeck" in
      destruct (deck st) as [|card rest] eqn:Hdeck;
      [ rewrite (playerHit_nil _ Hdeck) in H; discriminate H
      | rewrite (playerHit_cons _ _ _ Hdeck) in H;
        apply Returns_inj in H; subst st' ]
  end.

(** The arrays of the returned object are the caller's arrays. *)
Lemma playerHit_aliases (gameState st' : GameState) :
  playerHit gameState = Returns st' ->
  deck (playerHit_argument_after gameState) = deck st'
  /\ playerHand (playerHit_argument_after gameState) = playerHand st'.
Proof.
  intros Hhit. invert_playerHit Hhit.
  unfold playerHit_argument_after. rewrite Hdeck. by simpl.
Qed.

(** C3. On a state whose deck is not empty [playerHit] returns a state in
    which the first card of the deck has left the deck and stands at the end
    of the player's hand, nothing else of the deck or of either hand has
    changed, and [playerScore] is the score of the new hand.  A new score
    above 21 ends the round on 'player_bust'; otherwise [isGameOver] is
    false and the status 'active'.  [isPlayerTurn] is the input's in both
    cases. *)
Theorem playerHit_spec (gameState : GameState) (card : Card)
    (rest : list Card) :
  deck gameState = card :: rest ->
  exists st' : GameState,
    playerHit gameState = Returns st'
    /\ deck st' = rest
    /\ playerHand st' = playerHand gameState ++ [card]
    /\ dealerHand st' = dealerHand gameState
    /\ dealerScore st' = dealerScore gameState
    /\ playerScore st' = calculateHandScore (playerHand st')
    /\ isPlayerTurn st' = isPlayerTurn gameState
    /\ (21 < playerScore st' ->
        isGameOver st' = true /\ gameStatus st' = "player_bust"%string)
    /\ (playerScore st' <= 21 ->
        isGameOver st' = false /\ gameStatus st' = "active"%string).
Proof.
  intros Hdeck. eexists. split; [by apply playerHit_cons|].
  cbn [deck playerHand dealerHand dealerScore playerScore isPlayerTurn
       isGameOver gameStatus].
  repeat (split; [reflexivity|]). unfold hitStatus.
  destruct (Z.ltb_spec 21 (calculateHandScore (playerHand gameState ++ [card])));
    split; intros; (lia || done).
Qed.

Lemma playerHit_spec_witness :
  exists st' : GameState,
    playerHit eighteen = Returns st'
    /\ deck st' = [mkCard "hearts" "2" 2]
    /\ playerHand st' = playerHand eighteen ++ [mkCard "clubs" "6" 6]
    /\ dealerHand st' = dealerHand eighteen
    /\ dealerScore st' = dealerScore eighteen
    /\ playerScore st' = calculateHandScore (playerHand st')
    /\ isPlayerTurn st' = isPlayerTurn eighteen
    /\ (21 < playerScore st' ->
        isGameOver st' = true /\ gameStatus st' = "player_bust"%string)
    /\ (playerScore st' <= 21 ->
        isGameOver st' = false /\ gameStatus st' = "active"%string).
Proof.
  apply (playerHit_spec eighteen (mkCard "clubs" "6" 6)
           [mkCard "hearts" "2" 2]).
  reflexivity.
Defined.

Example playerHit_18_to_24 :
  exists st' : GameState,
    playerHit eighteen = Returns st'
    /\ playerScore st' = 24
    /\ gameStatus st' = "player_bust"%string
    /\ isGameOver st' = true.
Proof. eexists. split; [reflexivity|]. by vm_compute. Qed.

(** *** Hit on a finished round *)

Example playerHit_dealerWon :
  playerHit dealerWon
  = Returns {| deck := [];
               playerHand := [mkCard "spades" "K" 10; mkCard "hearts" "5" 5;
                              mkCard "clubs" "3" 3];
               dealerHand := [mkCard "diamonds" "10" 10; mkCard "clubs" "8" 8];
               playerScore := 18;
               dealerScore := 18;
               isPlayerTurn := false;
               isGameOver := false;
               gameStatus := "active" |}.
Proof. reflexivity. Qed.

(** C6, as stated, fails: on the finished round [dealerWon] the hit raises
    nothing, the card is dealt, and the caller's state has changed. *)
Lemma playerHit_no_guard :
  ~ (forall gameState : GameState,
        isGameOver gameState = true ->
        playerHit gameState = Throws InvalidActionError
        /\ playerHit_argument_after gameState = gameState).
Proof.
  intros Hclaim. destruct (Hclaim dealerWon eq_refl) as [Hthrows _].
  discriminate Hthrows.
Qed.

(** C6, as amended. [playerHit] has no guard on [isGameOver]: on a finished
    round it raises no [InvalidActionError].  With a card left in the deck
    it deals it as on a running round: the returned state holds the card in
    the player's hand, and its [isGameOver] and status follow from the new
    score alone (a score of at most 21 reopens the round as 'active'); the
    caller's state has not stayed as it was, its deck has lost the card and
    its hand has gained it.  With an empty deck the call throws a
    [TypeError]. *)
Theorem playerHit_game_over (gameState : GameState) :
  isGameOver gameState = true ->
  playerHit gameState <> Throws InvalidActionError
  /\ (deck gameState = [] -> playerHit gameState = Throws TypeError)
  /\ (forall (card : Card) (rest : list Card),
        deck gameState = card :: rest ->
        exists st' : GameState,
          playerHit gameState = Returns st'
          /\ deck st' = rest
          /\ playerHand st' = playerHand gameState ++ [card]
          /\ playerScore st' = calculateHandScore (playerHand st')
          /\ isGameOver st' = bool_decide (21 < playerScore st')
          /\ gameStatus st'
             = (if bool_decide (21 < playerScore st')
                then "player_bust" else "active")%string
          /\ deck (playerHit_argument_after gameState) = rest
          /\ playerHand (playerHit_argument_after gameState)
             = playerHand gameState ++ [card]
          /\ playerHit_argument_after gameState <> gameState).
Proof.
  intros _. split; [|split].
  - destruct (deck gameState) as [|card rest] eqn:Hdeck.
    + by rewrite (playerHit_nil _ Hdeck).
    + by rewrite (playerHit_cons _ _ _ Hdeck).
  - apply playerHit_nil.
  - intros card rest Hdeck. eexists.
    split; [by apply playerHit_cons|].
    cbn [deck playerHand playerScore isGameOver gameStatus].
    repeat (split; [reflexivity|]).
    split; [|split].
    + unfold hitStatus. destruct (Z.ltb_spec 21
        (calculateHandScore (playerHand gameState ++ [card]))).
      * by rewrite bool_decide_eq_true_2.
      * by rewrite bool_decide_eq_false_2 by lia.
    + unfold hitStatus. destruct (Z.ltb_spec 21
        (calculateHandScore (playerHand gameState ++ [card]))).
      * by rewrite bool_decide_eq_true_2.
      * by rewrite bool_decide_eq_false_2 by lia.
    + unfold playerHit_argument_after. rewrite Hdeck. cbn.
      repeat split; try done.
      intros Heq. apply (f_equal deck) in Heq. cbn in Heq.
      rewrite Hdeck in Heq. apply (f_equal length) in Heq.
      rewrite length_drop in Heq. simpl in Heq. lia.
Qed.

Lemma playerHit_game_over_witness :
  playerHit dealerWon <> Throws InvalidActionError
  /\ playerHit_argument_after dealerWon <> dealerWon.
Proof.
  destruct (playerHit_game_over dealerWon eq_refl) as (Hno & _ & Hdeal).
  split; [exact Hno|].
  destruct (Hdeal (mkCard "clubs" "3" 3) [] eq_refl)
    as (st' & _ & _ & _ & _ & _ & _ & _ & _ & Hne).
  exact Hne.
Defined.

(** ** The dealer's loop *)

(** The turn of the loop as the source writes it, through
    [dealCards(deck, 1)[0]]. *)
Lemma dealerLoop_unfold (cards hand : list Card) (score : Z) :
  dealerLoop cards hand score
  = if score <? DEALER_STAND_THRESHOLD then
      '(dealt, cards') ← dealCards cards 1;
      match dealt !! O with
      | None => Throws TypeError
      | Some newCard =>
          dealerLoop cards' (hand ++ [newCard])
                     (calculateHandScore (hand ++ [newCard]))
      end
    else Returns (cards, hand, score).
Proof. by destruct cards. Qed.

Lemma take_snoc_cons (hand : list Card) (card : Card) (cards : list Card)
    (k : nat) :
  hand ++ take (S k) (card :: cards) = (hand ++ [card]) ++ take k cards.
Proof. by rewrite <- app_assoc. Qed.

Lemma dealerLoop_served (cards hand : list Card) :
  dealerServed cards hand ->
  exists k : nat,
    firstStand k cards hand
    /\ dealerLoop cards hand (calculateHandScore hand)
       = Returns (afterDraws k cards hand).
Proof.
  revert hand. induction cards as [|card cards IH]; intros hand (k & Hk & Hscore).
  - assert (k = O) as -> by (simpl in Hk; lia).
    cbn [take] in Hscore. rewrite app_nil_r in Hscore.
    exists O. unfold firstStand, afterDraws. cbn [take drop].
    rewrite app_nil_r. split; [repeat split; [lia | lia | done]|].
    cbn [dealerLoop]. unfold DEALER_STAND_THRESHOLD.
    destruct (Z.ltb_spec (calculateHandScore hand) 17); [lia|done].
  - cbn [dealerLoop]. unfold DEALER_STAND_THRESHOLD.
    destruct (Z.ltb_spec (calculateHandScore hand) 17) as [Hlow|Hhigh].
    + destruct k as [|k].
      { cbn [take] in Hscore. rewrite app_nil_r in Hscore. lia. }
      rewrite take_snoc_cons in Hscore.
      destruct (IH (hand ++ [card])) as (k' & (Hk' & Hbefore & Hstop) & Heq).
      { exists k. simpl in Hk. split; [lia|done]. }
      exists (S k'). split.
      * repeat split.
        -- simpl. lia.
        -- intros [|j] Hj.
           ++ cbn [take]. by rewrite app_nil_r.
           ++ rewrite take_snoc_cons. apply Hbefore. lia.
        -- by rewrite take_snoc_cons.
      * rewrite Heq. unfold afterDraws. cbn [drop].
        by rewrite take_snoc_cons.
    + exists O. unfold firstStand, afterDraws. cbn [take drop].
      rewrite app_nil_r. split; [repeat split; [lia | lia | done]|done].
Qed.

Lemma dealerLoop_returns_served (cards hand : list Card)
    (r : list Card * list Card * Z) :
  dealerLoop cards hand (calculateHandScore hand) = Returns r ->
  dealerServed cards hand.
Proof.
  revert hand. induction cards as [|card cards IH]; intros hand;
    cbn [dealerLoop]; unfold DEALER_STAND_THRESHOLD;
    destruct (Z.ltb_spec (calculateHandScore hand) 17) as [Hlow|Hhigh];
    intros Hret.
  - discriminate.
  - exists O. cbn [take]. rewrite app_nil_r. split; [lia|done].
  - destruct (IH _ Hret) as (k & Hk & Hscore).
    exists (S k). rewrite take_snoc_cons. simpl. split; [lia|done].
  - exists O. cbn [take]. rewrite app_nil_r. split; [lia|done].
Qed.

Lemma dealerLoop_unserved (cards hand : list Card) :
  ~ dealerServed cards hand ->
  dealerLoop cards hand (calculateHandScore hand) = Throws TypeError.
Proof.
  revert hand. induction cards as [|card cards IH]; intros hand Hno;
    cbn [dealerLoop]; unfold DEALER_STAND_THRESHOLD;
    destruct (Z.ltb_spec (calculateHandScore hand) 17) as [Hlow|Hhigh].
  - done.
  - exfalso. apply Hno. exists O. cbn [take]. rewrite app_nil_r.
    split; [lia|done].
  - apply IH. intros (k & Hk & Hscore). apply Hno.
    exists (S k). rewrite take_snoc_cons. simpl. split; [lia|done].
  - exfalso. apply Hno. exists O. cbn [take]. rewrite app_nil_r.
    split; [simpl; lia|done].
Qed.

(** [playerStand] on a served deck: the object it returns. *)
Lemma playerStand_served (gameState : GameState) :
  dealerServed (deck gameState) (dealerHand gameState) ->
  exists k : nat,
    firstStand k (deck gameState) (dealerHand gameState)
    /\ playerStand gameState
       = Returns
           {| deck := drop k (deck gameState);
              playerHand := playerHand gameState;
              dealerHand := dealerHand gameState ++ take k (deck gameState);
              playerScore := playerScore gameState;
              dealerScore :=
                calculateHandScore
                  (dealerHand gameState ++ take k (deck gameState));
              isPlayerTurn := false;
              isGameOver := true;
              gameStatus :=
                outcomeStatus
                  (calculateHandScore
                     (dealerHand gameState ++ take k (deck gameState)))
                  (playerScore gameState) |}.
Proof.
  intros Hserved.
  destruct (dealerLoop_served _ _ Hserved) as (k & Hfirst & Heq).
  exists k. split; [done|]. unfold playerStand. by rewrite Heq.
Qed.

Lemma playerStand_returns_served (gameState st' : GameState) :
  playerStand gameState = Returns st' ->
  dealerServed (deck gameState) (dealerHand gameState).
Proof.
  unfold playerStand.
  destruct (dealerLoop _ _ _) as [r|e] eqn:Hloop; [|discriminate].
  intros _. by eapply dealerLoop_returns_served.
Qed.

(** *** Hard totals *)

Lemma hardTotal_app (h1 h2 : list Card) :
  hardTotal (h1 ++ h2) = hardTotal h1 + hardTotal h2.
Proof. unfold hardTotal. rewrite handTotal_app, aceCards_app. lia. Qed.

Lemma hardTotal_card (card : Card) :
  assignedValue card -> 1 <= hardTotal [card].
Proof.
  unfold assignedValue, hardTotal. rewrite aceCards_cons, handTotal_cons.
  unfold handTotal, aceCards. simpl.
  destruct (decide (rank card = "A"%string)); lia.
Qed.

Lemma hardTotal_length (hand : list Card) :
  Forall assignedValue hand -> Z.of_nat (length hand) <= hardTotal hand.
Proof.
  induction 1 as [|card hand Hcard _ IH]; [done|].
  change (card :: hand) with ([card] ++ hand).
  rewrite hardTotal_app, length_app.
  pose proof (hardTotal_card _ Hcard). simpl length. lia.
Qed.

Lemma hardTotal_le_score (hand : list Card) :
  hardTotal hand <= calculateHandScore hand.
Proof. rewrite calculateHandScore_eq. apply adjustAces_ge. Qed.

(** Seventeen cards of assigned value always serve the dealer. *)
Lemma assigned_served (cards hand : list Card) :
  Forall assignedValue hand ->
  Forall assignedValue cards ->
  (17 <= length cards)%nat ->
  dealerServed cards hand.
Proof.
  intros Hhand Hcards Hlen. exists 17%nat. split; [done|].
  etransitivity; [|apply hardTotal_le_score].
  etransitivity; [|apply hardTotal_length].
  - rewrite length_app, length_take. lia.
  - apply Forall_app. split; [done|]. by apply Forall_take.
Qed.

(** ** Rounds *)

Lemma startNewGame_returns (rnd : nat -> nat) :
  startNewGame rnd
  = Returns
      {| deck := drop 2 (drop 2 (createDeck rnd));
         playerHand := take 2 (createDeck rnd);
         dealerHand := take 2 (drop 2 (createDeck rnd));
         playerScore := calculateHandScore (take 2 (createDeck rnd));
         dealerScore :=
           calculateHandScore (take 2 (drop 2 (createDeck rnd)));
         isPlayerTurn := true;
         isGameOver := false;
         gameStatus := "active" |}.
Proof. reflexivity. Qed.

(** The state a returning [startNewGame] or [playerStand] made. *)
Ltac invert_startNewGame H :=
  lazymatch type of H with
  | startNewGame ?rnd = Returns ?st =>
      rewrite startNewGame_returns in H; apply Returns_inj in H; subst st
  end.

Ltac invert_playerStand H k Hfirst :=
  lazymatch type of H with
  | playerStand ?st = Returns ?st' =>
      let Heq := fresh "Heq" in
      destruct (playerStand_served st (playerStand_returns_served _ _ H))
        as (k & Hfirst & Heq);
      rewrite Heq in H; apply Returns_inj in H; subst st'; clear Heq
  end.

Lemma playerHit_dealtTo (st st' : GameState) :
  playerHit st = Returns st' ->
  exists card : Card, dealtTo st st' [card].
Proof.
  intros Hhit. invert_playerHit Hhit.
  exists card. unfold dealtTo. cbn. split; [done|]. by left.
Qed.

Lemma playerStand_dealtTo (st st' : GameState) :
  playerStand st = Returns st' ->
  exists k : nat, dealtTo st st' (take k (deck st)).
Proof.
  intros Hstand. invert_playerStand Hstand k Hfirst.
  exists k. unfold dealtTo. cbn. split; [by rewrite take_drop|]. by right.
Qed.

Lemma dealtTo_allCards (st st' : GameState) (dealt : list Card) :
  dealtTo st st' dealt -> allCards st' ≡ₚ allCards st.
Proof.
  unfold dealtTo, allCards.
  intros (-> & [[-> ->]|[-> ->]]).
  - rewrite <- !app_assoc. f_equiv.
    rewrite !app_assoc. f_equiv. apply Permutation_app_comm.
  - by rewrite <- !app_assoc.
Qed.

(** The cards of a round are the 52 cards of the deck it was started on. *)
Lemma reachable_allCards (st : GameState) :
  reachable st -> allCards st ≡ₚ orderedDeck.
Proof.
  induction 1 as [rnd st Hstart|st st' _ IH Hhit|st st' _ IH Hstand].
  - invert_startNewGame Hstart.
    unfold allCards. cbn [playerHand dealerHand deck].
    rewrite !take_drop. apply createDeck_Permutation.
  - destruct (playerHit_dealtTo _ _ Hhit) as (card & Hdealt).
    by rewrite (dealtTo_allCards _ _ _ Hdealt).
  - destruct (playerStand_dealtTo _ _ Hstand) as (k & Hdealt).
    by rewrite (dealtTo_allCards _ _ _ Hdealt).
Qed.

(** The dealer holds the two cards of the deal until a stand has brought
    the hand to 17 or more. *)
Lemma reachable_dealer (st : GameState) :
  reachable st ->
  length (dealerHand st) = 2%nat
  \/ 17 <= calculateHandScore (dealerHand st).
Proof.
  induction 1 as [rnd st Hstart|st st' _ IH Hhit|st st' _ IH Hstand].
  - invert_startNewGame Hstart. left. cbn [dealerHand].
    rewrite length_take, length_drop, createDeck_length. lia.
  - by invert_playerHit Hhit.
  - invert_playerStand Hstand k Hfirst. right. apply Hfirst.
Qed.

Lemma orderedDeck_assigned : Forall assignedValue orderedDeck.
Proof. apply (bool_decide_unpack _). by vm_compute. Qed.

Section Round.

(** A state of a round. *)
Context (st : GameState) (Hreach : reachable st).

Lemma reachable_length :
  (length (playerHand st) + length (dealerHand st) + length (deck st)
   = 52)%nat.
Proof.
  pose proof (reachable_allCards _ Hreach) as Hperm.
  assert (length (allCards st) = 52%nat) as Hlen by by rewrite Hperm.
  unfold allCards in Hlen. rewrite !length_app in Hlen. lia.
Qed.

Lemma reachable_assigned :
  Forall assignedValue (playerHand st)
  /\ Forall assignedValue (dealerHand st)
  /\ Forall assignedValue (deck st).
Proof.
  assert (Forall assignedValue (allCards st)) as Hall
    by (rewrite (reachable_allCards _ Hreach); apply orderedDeck_assigned).
  unfold allCards in Hall. rewrite !Forall_app in Hall. tauto.
Qed.

(** While the round is open the player holds at most 21 cards. *)
Lemma reachable_player :
  isGameOver st = false -> (length (playerHand st) <= 21)%nat.
Proof.
  pose proof reachable_assigned as (Hplayer & _). revert Hplayer.
  destruct Hreach as [rnd st0 Hstart|st0 st' _ Hhit|st0 st' _ Hstand].
  - invert_startNewGame Hstart.
    intros _ _. cbn [playerHand]. rewrite length_take. lia.
  - invert_playerHit Hhit.
    cbn [isGameOver playerHand]. unfold hitStatus.
    destruct (Z.ltb_spec 21 (calculateHandScore (playerHand st0 ++ [card])))
      as [Hbust|Hopen]; [discriminate|]. intros Hplayer _.
    pose proof (hardTotal_length _ Hplayer).
    pose proof (hardTotal_le_score (playerHand st0 ++ [card])). lia.
  - invert_playerStand Hstand k Hfirst. discriminate.
Qed.

(** On an open round the deck always serves the dealer. *)
Lemma reachable_open_served :
  isGameOver st = false -> dealerServed (deck st) (dealerHand st).
Proof.
  intros Hopen.
  destruct (reachable_dealer _ Hreach) as [Htwo|Hstands].
  - destruct reachable_assigned as (_ & Hdealer & Hdeck).
    pose proof reachable_length as Hlen.
    pose proof (reachable_player Hopen).
    apply assigned_served; [done|done|lia].
  - exists O. cbn [take]. rewrite app_nil_r. split; [lia|done].
Qed.

(** C8. In every state of a round (every deal having been served, since the
    calls returned) the two hands and the deck hold 52 cards between them,
    so that the deck holds 52 less the number of cards dealt; the cards are
    those of the fresh deck; and every further action deals a run of cards
    off the front of the deck onto the end of one hand, the other hand
    staying as it was. *)
Theorem card_conservation :
  (length (playerHand st) + length (dealerHand st) + length (deck st)
   = 52)%nat
  /\ Z.of_nat (length (deck st))
     = 52 - Z.of_nat (length (playerHand st) + length (dealerHand st))
  /\ allCards st ≡ₚ orderedDeck
  /\ (forall st' : GameState,
        playerHit st = Returns st' \/ playerStand st = Returns st' ->
        exists dealt : list Card, dealtTo st st' dealt).
Proof.
  pose proof reachable_length as Hlen.
  split; [lia|]. split; [lia|]. split; [by apply reachable_allCards|].
  intros st' [Hhit|Hstand].
  - destruct (playerHit_dealtTo _ _ Hhit) as (card & Hdealt). eauto.
  - destruct (playerStand_dealtTo _ _ Hstand) as (k & Hdealt). eauto.
Qed.

End Round.

Lemma firstRound_reachable : reachable firstRound.
Proof. apply (reachable_start (fun _ => O)). apply startNewGame_returns. Qed.

Lemma card_conservation_witness :
  (length (playerHand firstRound) + length (dealerHand firstRound)
   + length (deck firstRound) = 52)%nat.
Proof. exact (proj1 (card_conservation firstRound firstRound_reachable)). Defined.

(** ** Stand *)

(** C2. On every open state of a round, and on any state at all whose deck
    serves the dealer's draws, [playerStand] returns a state with
    [isPlayerTurn] false and [isGameOver] true.  The dealer has drawn [k]
    cards, one at a time from the front of the deck onto the end of the hand,
    the score of the hand recomputed after each: it was below 17 before
    every draw and is 17 or more at the end.  The status is 'dealer_bust'
    on a dealer's score above 21; otherwise 'dealer_win' if it exceeds the
    player's score, 'player_win' if the player's exceeds it, and 'tie' if
    the two are equal.  The player's hand and score are the input's. *)
Theorem playerStand_spec (gameState : GameState) :
  (reachable gameState /\ isGameOver gameState = false)
  \/ dealerServed (deck gameState) (dealerHand gameState) ->
  exists (k : nat) (st' : GameState),
    playerStand gameState = Returns st'
    /\ isPlayerTurn st' = false
    /\ isGameOver st' = true
    /\ (k <= length (deck gameState))%nat
    /\ (forall j : nat, (j < k)%nat ->
          calculateHandScore
            (dealerHand gameState ++ take j (deck gameState)) < 17)
    /\ dealerHand st' = dealerHand gameState ++ take k (deck gameState)
    /\ deck st' = drop k (deck gameState)
    /\ dealerScore st' = calculateHandScore (dealerHand st')
    /\ 17 <= dealerScore st'
    /\ playerHand st' = playerHand gameState
    /\ playerScore st' = playerScore gameState
    /\ (21 < dealerScore st' -> gameStatus st' = "dealer_bust"%string)
    /\ (dealerScore st' <= 21 -> playerScore st' < dealerScore st' ->
        gameStatus st' = "dealer_win"%string)
    /\ (dealerScore st' <= 21 -> dealerScore st' < playerScore st' ->
        gameStatus st' = "player_win"%string)
    /\ (dealerScore st' <= 21 -> dealerScore st' = playerScore st' ->
        gameStatus st' = "tie"%string).
Proof.
  intros Hstate.
  assert (dealerServed (deck gameState) (dealerHand gameState)) as Hserved.
  { destruct Hstate as [[Hreach Hopen]|Hserved]; [|done].
    by apply reachable_open_served. }
  destruct (playerStand_served _ Hserved)
    as (k & (Hk & Hbefore & Hstop) & Heq).
  eexists k, _. split; [exact Heq|].
  cbn [deck playerHand dealerHand playerScore dealerScore isPlayerTurn
       isGameOver gameStatus].
  repeat (split; [done|]). unfold outcomeStatus.
  set (dealer := calculateHandScore _) in *.
  repeat split; intros;
    repeat (match goal with
            | |- context [?a <? ?b] => destruct (Z.ltb_spec a b)
            end); (lia || done).
Qed.

Example playerStand_tie :
  playerStand standOnTwenty
  = Returns {| deck := [mkCard "spades" "4" 4];
               playerHand := [mkCard "spades" "K" 10; mkCard "hearts" "Q" 10];
               dealerHand := [mkCard "diamonds" "10" 10; mkCard "clubs" "2" 2;
                              mkCard "hearts" "8" 8];
               playerScore := 20;
               dealerScore := 20;
               isPlayerTurn := false;
               isGameOver := true;
               gameStatus := "tie" |}.
Proof. reflexivity. Qed.

Lemma standOnTwenty_served :
  dealerServed (deck standOnTwenty) (dealerHand standOnTwenty).
Proof. exists 1%nat. split; [simpl; lia | by vm_compute]. Qed.

Lemma playerStand_spec_witness :
  (exists (k : nat) (st' : GameState),
      playerStand standOnTwenty = Returns st'
      /\ isPlayerTurn st' = false
      /\ isGameOver st' = true
      /\ dealerHand st'
         = dealerHand standOnTwenty ++ take k (deck standOnTwenty)
      /\ 17 <= dealerScore st')
  /\ (exists st' : GameState,
        playerStand firstRound = Returns st'
        /\ isGameOver st' = true
        /\ 17 <= dealerScore st').
Proof.
  split.
  - destruct (playerStand_spec standOnTwenty
                (or_intror standOnTwenty_served))
      as (k & st' & Hret & Hturn & Hover & _ & _ & Hhand & _ & _ & Hscore & _).
    exists k, st'. repeat split; assumption.
  - destruct (playerStand_spec firstRound
                (or_introl (conj firstRound_reachable eq_refl)))
      as (k & st' & Hret & _ & Hover & _ & _ & _ & _ & _ & Hscore & _).
    exists st'. repeat split; assumption.
Defined.

(** *** Termination of the dealer's loop *)

(** C7, as amended. On every state in which the deck does not run out while
    the dealer is below 17, and in particular on every state whose dealer's
    hand and deck hold cards of assigned value with at least 17 cards in the
    deck, the dealer's loop ends and [playerStand] returns, the dealer's
    score being 17 or more after [k] draws.  On cards of assigned value
    every draw raises the dealer's hard total (every Ace counted as 1) by at
    least 1, and the score is never below the hard total, so [k] is at most
    17.  (The score itself need not rise with a draw.) *)
Theorem dealer_loop_terminates (gameState : GameState) :
  dealerServed (deck gameState) (dealerHand gameState)
  \/ (Forall assignedValue (dealerHand gameState)
      /\ Forall assignedValue (deck gameState)
      /\ (17 <= length (deck gameState))%nat) ->
  exists (k : nat) (st' : GameState),
    playerStand gameState = Returns st'
    /\ (k <= length (deck gameState))%nat
    /\ dealerHand st' = dealerHand gameState ++ take k (deck gameState)
    /\ dealerScore st' = calculateHandScore (dealerHand st')
    /\ 17 <= dealerScore st'
    /\ (Forall assignedValue (dealerHand gameState) ->
        Forall assignedValue (deck gameState) ->
        (k <= 17)%nat
        /\ forall j : nat, (j < k)%nat ->
             hardTotal (dealerHand gameState ++ take j (deck gameState)) + 1
             <= hardTotal
                  (dealerHand gameState ++ take (S j) (deck gameState))
             /\ hardTotal
                  (dealerHand gameState ++ take (S j) (deck gameState))
                <= calculateHandScore
                     (dealerHand gameState ++ take (S j) (deck gameState))).
Proof.
  intros Hstate.
  assert (dealerServed (deck gameState) (dealerHand gameState)) as Hserved.
  { destruct Hstate as [Hserved|(Hhand & Hdeck & Hlen)]; [done|].
    by apply assigned_served. }
  destruct (playerStand_served _ Hserved)
    as (k & (Hk & Hbefore & Hstop) & Heq).
  eexists k, _. split; [exact Heq|].
  cbn [dealerHand dealerScore].
  repeat (split; [done|]).
  intros Hhand Hdeck. split.
  - destruct (decide (k <= 17)%nat) as [|Hmore]; [done|]. exfalso.
    specialize (Hbefore 17%nat ltac:(lia)).
    pose proof (hardTotal_le_score
                  (dealerHand gameState ++ take 17 (deck gameState))) as Hle.
    assert (Forall assignedValue
              (dealerHand gameState ++ take 17 (deck gameState))) as Hall
      by (apply Forall_app; split; [done | by apply Forall_take]).
    apply hardTotal_length in Hall.
    rewrite length_app, length_take in Hall. lia.
  - intros j Hj.
    destruct (lookup_lt_is_Some_2 (deck gameState) j ltac:(lia))
      as [card Hcard].
    rewrite (take_S_r _ _ _ Hcard), app_assoc. split.
    + rewrite (hardTotal_app _ [card]).
      assert (assignedValue card) as Hassigned.
      { rewrite Forall_lookup in Hdeck. by eapply Hdeck. }
      pose proof (hardTotal_card _ Hassigned). lia.
    + apply hardTotal_le_score.
Qed.

Lemma softSixteen_assigned :
  Forall assignedValue (dealerHand softSixteen)
  /\ Forall assignedValue (deck softSixteen)
  /\ (17 <= length (deck softSixteen))%nat.
Proof.
  split; [|split].
  - apply (bool_decide_unpack _). by vm_compute.
  - apply (bool_decide_unpack _). by vm_compute.
  - simpl. lia.
Qed.

Lemma dealer_loop_terminates_witness :
  exists (k : nat) (st' : GameState),
    playerStand softSixteen = Returns st'
    /\ (k <= 17)%nat
    /\ 17 <= dealerScore st'.
Proof.
  destruct (dealer_loop_terminates softSixteen (or_intror softSixteen_assigned))
    as (k & st' & Hret & _ & _ & _ & Hscore & Hhard).
  destruct softSixteen_assigned as (Hhand & Hdeck & _).
  exists k, st'. repeat split; [exact Hret | | exact Hscore].
  exact (proj1 (Hhard Hhand Hdeck)).
Defined.

(** The king leaves the soft 16 a hard 16; the two that follows makes 18. *)
Example playerStand_softSixteen :
  exists st' : GameState,
    playerStand softSixteen = Returns st'
    /\ dealerHand st'
       = [mkCard "hearts" "A" 11; mkCard "diamonds" "5" 5;
          mkCard "clubs" "K" 10; mkCard "clubs" "2" 2]
    /\ dealerScore st' = 18
    /\ gameStatus st' = "tie"%string.
Proof. eexists. split; [reflexivity|]. by vm_compute. Qed.

(** C7, as stated, fails: a drawn card need not raise the dealer's score.
    In [softSixteen], whose deck holds 17 cards, the dealer stands below 17
    on 16, draws the king, and is on 16 again. *)
Lemma dealer_draw_need_not_raise_score :
  ~ (forall (gameState : GameState) (j : nat) (card : Card),
        Forall assignedValue (dealerHand gameState) ->
        Forall assignedValue (deck gameState) ->
        (17 <= length (deck gameState))%nat ->
        calculateHandScore
          (dealerHand gameState ++ take j (deck gameState)) < 17 ->
        deck gameState !! j = Some card ->
        calculateHandScore
          (dealerHand gameState ++ take j (deck gameState)) + 1
        <= calculateHandScore
             (dealerHand gameState ++ take (S j) (deck gameState))).
Proof.
  intros Hclaim.
  destruct softSixteen_assigned as (Hhand & Hdeck & Hlen).
  specialize (Hclaim softSixteen O (mkCard "clubs" "K" 10) Hhand Hdeck Hlen).
  vm_compute in Hclaim. by apply Hclaim.
Qed.

(** Seventeen cards are not enough when they carry no assigned value: on
    cards worth nothing the dealer runs through the deck and the call
    throws. *)
Example playerStand_worthless_deck :
  playerStand
    {| deck := replicate 17 (mkCard "clubs" "joker" 0);
       playerHand := [];
       dealerHand := [];
       playerScore := 0;
       dealerScore := 0;
       isPlayerTurn := true;
       isGameOver := false;
       gameStatus := "active" |}
  = Throws TypeError.
Proof. reflexivity. Qed.

(** * Further properties of the engine *)

(** ** The score of a hand *)

Lemma handTotal_Permutation (h1 h2 : list Card) :
  h1 ≡ₚ h2 -> handTotal h1 = handTotal h2.
Proof.
  induction 1 as [|c h1 h2 _ IH|c1 c2 h|h1 h2 h3 _ IH1 _ IH2].
  - done.
  - by rewrite !handTotal_cons, IH.
  - rewrite !handTotal_cons. lia.
  - by rewrite IH1.
Qed.

Lemma aceCards_Permutation (h1 h2 : list Card) :
  h1 ≡ₚ h2 -> aceCards h1 = aceCards h2.
Proof. intros Hperm. unfold aceCards. by rewrite Hperm. Qed.

(** X1. The score of a hand does not depend on the order in which its cards
    were dealt. *)
Theorem calculateHandScore_Permutation (h1 h2 : list Card) :
  h1 ≡ₚ h2 -> calculateHandScore h1 = calculateHandScore h2.
Proof.
  intros Hperm. rewrite !calculateHandScore_eq.
  by rewrite (handTotal_Permutation _ _ Hperm),
             (aceCards_Permutation _ _ Hperm).
Qed.

Lemma calculateHandScore_Permutation_witness :
  calculateHandScore
    [mkCard "spades" "A" 11; mkCard "hearts" "9" 9; mkCard "clubs" "A" 11]
  = calculateHandScore
      [mkCard "hearts" "9" 9; mkCard "clubs" "A" 11; mkCard "spades" "A" 11].
Proof.
  apply calculateHandScore_Permutation.
  apply Permutation_cons_append.
Defined.


(** A hand above 21 stays above 21 whatever card of assigned value joins
    it. *)
Lemma bust_snoc (hand : list Card) (card : Card) :
  assignedValue card ->
  21 < calculateHandScore hand ->
  21 < calculateHandScore (hand ++ [card]).
Proof.
  intros Hcard Hbust.
  pose proof (hardTotal_le_score (hand ++ [card])) as Hle.
  rewrite hardTotal_app in Hle.
  pose proof (hardTotal_card _ Hcard).
  pose proof (hardTotal_le_score hand).
  rewrite calculateHandScore_eq in Hbust. unfold hardTotal in *.
  destruct (adjustAces_reductions (aceCards hand) (handTotal hand))
    as (k & Hk & Heq & _ & Hstop).
  rewrite Heq in Hbust.
  destruct (decide (k < aceCards hand)%nat) as [Hlt|Hge].
  - specialize (Hstop Hlt). lia.
  - assert (k = aceCards hand) as -> by lia. lia.
Qed.

(** X3. A bust is final: a hit on a hand that scores above 21 returns
    'player_bust' again, with a score above 21, whatever card of assigned
    value is dealt. *)
Theorem playerHit_stays_bust (gameState : GameState) (card : Card)
    (rest : list Card) :
  deck gameState = card :: rest ->
  assignedValue card ->
  21 < calculateHandScore (playerHand gameState) ->
  exists st' : GameState,
    playerHit gameState = Returns st'
    /\ 21 < playerScore st'
    /\ isGameOver st' = true
    /\ gameStatus st' = "player_bust"%string.
Proof.
  intros Hdeck Hcard Hbust.
  pose proof (bust_snoc _ _ Hcard Hbust) as Hbust'.
  eexists. split; [by apply playerHit_cons|].
  cbn [playerScore isGameOver gameStatus]. unfold hitStatus.
  destruct (Z.ltb_spec 21 (calculateHandScore (playerHand gameState ++ [card])));
    [done|lia].
Qed.

Lemma playerHit_stays_bust_witness :
  exists st' : GameState,
    playerHit bustedPlayer = Returns st'
    /\ 21 < playerScore st'
    /\ isGameOver st' = true
    /\ gameStatus st' = "player_bust"%string.
Proof.
  apply (playerHit_stays_bust bustedPlayer (mkCard "clubs" "3" 3)
           [mkCard "spades" "7" 7]).
  - reflexivity.
  - by vm_compute.
  - by vm_compute.
Defined.

(** ** The shuffle reaches every order *)

(** The loop consults the random source from its [k]-th answer on. *)
Lemma shuffleLoop_ext {A : Type} (rnd1 rnd2 : nat -> nat) (i k : nat)
    (l : list A) :
  (forall k' : nat, (k <= k')%nat -> rnd1 k' = rnd2 k') ->
  shuffleLoop rnd1 k i l = shuffleLoop rnd2 k i l.
Proof.
  revert k l. induction i as [|i IH]; intros k l Hagree; [done|].
  cbn [shuffleLoop]. unfold randomIndex. rewrite (Hagree k) by lia.
  apply IH. intros k' Hk'. apply Hagree. lia.
Qed.

Lemma shuffleLoop_reaches {A : Type} (i k : nat) (l t : list A) :
  (S i <= length l)%nat ->
  length l = length t ->
  take (S i) l ≡ₚ take (S i) t ->
  drop (S i) l = drop (S i) t ->
  exists rnd : nat -> nat, shuffleLoop rnd k i l = t.
Proof.
  revert k l. induction i as [|i IH]; intros k l Hi Hlen Htake Hdrop.
  - exists (fun _ => O). cbn [shuffleLoop].
    rewrite <- (take_drop 1 l), <- (take_drop 1 t), Hdrop. f_equal.
    destruct l as [|x l], t as [|y t]; simpl in *; try lia.
    by apply Permutation_singleton_l in Htake.
  - destruct (lookup_lt_is_Some_2 t (S i) ltac:(lia)) as [x Hx].
    destruct (lookup_lt_is_Some_2 l (S i) ltac:(lia)) as [xi Hxi].
    assert (x ∈ take (S (S i)) l) as Hin.
    { rewrite Htake. apply list_elem_of_lookup. exists (S i).
      rewrite lookup_take_lt by lia. done. }
    apply list_elem_of_lookup in Hin as [j Hj].
    assert (j < S (S i))%nat as Hjlt.
    { apply lookup_lt_Some in Hj. rewrite length_take in Hj. lia. }
    rewrite lookup_take_lt in Hj by lia.
    set (l1 := <[j := xi]> (<[S i := x]> l)).
    assert (swap (S i) j l = l1) as Hswap
      by (unfold swap; by rewrite Hj, Hxi).
    assert (l1 !! S i = Some x) as Hl1.
    { unfold l1. destruct (decide (j = S i)) as [->|Hne].
      - rewrite list_lookup_insert_eq by (rewrite length_insert; lia).
        congruence.
      - rewrite list_lookup_insert_ne by done.
        by rewrite list_lookup_insert_eq by lia. }
    assert (length l1 = length l) as Hlen1
      by (unfold l1; by rewrite !length_insert).
    assert (drop (S (S i)) l1 = drop (S (S i)) l) as Hdrop1.
    { unfold l1. by rewrite !drop_insert_lt by lia. }
    assert (take (S (S i)) l1 ≡ₚ take (S (S i)) l) as Htake1.
    { apply (Permutation_app_inv_r (drop (S (S i)) l)).
      rewrite <- Hdrop1 at 1. rewrite !take_drop. unfold l1.
      by apply Permutation_insert_swap. }
    destruct (IH (S k) l1) as [rnd' Hrnd'].
    + lia.
    + lia.
    + assert (take (S (S i)) l1 ≡ₚ take (S (S i)) t) as Hboth
        by (by rewrite Htake1).
      rewrite (take_S_r _ _ _ Hl1), (take_S_r _ _ _ Hx) in Hboth.
      by apply Permutation_app_inv_r in Hboth.
    + rewrite (drop_S _ _ _ Hl1), (drop_S _ _ _ Hx). by rewrite Hdrop1, Hdrop.
    + exists (fun k' => if decide (k' = k) then j else rnd' k').
      cbn [shuffleLoop]. unfold randomIndex.
      destruct (decide (k = k)) as [_|]; [|done].
      replace (j mod (S i + 1))%nat with j by (symmetry; apply Nat.mod_small; lia).
      rewrite Hswap, <- Hrnd'. apply shuffleLoop_ext.
      intros k' Hk'. destruct (decide (k' = k)); [lia|done].
Qed.

(** X4. [shuffleDeck] returns the permutations of its input and nothing
    else: whatever the random source answers the result is a permutation of
    the input, and every permutation of the input is the result for some
    random source. *)
Theorem shuffleDeck_permutations {A : Type} (l t : list A) :
  (exists rnd : nat -> nat, shuffleDeck rnd l = t) <-> l ≡ₚ t.
Proof.
  split.
  - intros [rnd <-]. symmetry. apply shuffleDeck_Permutation.
  - intros Hperm. unfold shuffleDeck.
    pose proof (Permutation_length Hperm) as Hlen.
    destruct l as [|x l].
    + apply Permutation_nil_l in Hperm as <-. by exists (fun _ => O).
    + apply shuffleLoop_reaches.
      * simpl. lia.
      * done.
      * replace (S (length (x :: l) - 1)) with (length (x :: l))
          by (simpl; lia).
        rewrite firstn_all. rewrite Hlen, firstn_all. done.
      * replace (S (length (x :: l) - 1)) with (length (x :: l))
          by (simpl; lia).
        rewrite drop_all. rewrite Hlen, drop_all. done.
Qed.

(** ** Deals in sequence *)

(** X5. Two deals in a row are one deal of the two counts together: the
    cards of the first followed by the cards of the second are the cards a
    single deal of both counts takes, and the deck is left the same. *)
Theorem dealCards_compose (cards : list Card) (n m : Z) :
  0 <= n -> 0 <= m ->
  exists dealt1 rest1 dealt2 rest2 : list Card,
    dealCards cards n = Returns (dealt1, rest1)
    /\ dealCards rest1 m = Returns (dealt2, rest2)
    /\ dealCards cards (n + m) = Returns (dealt1 ++ dealt2, rest2).
Proof.
  intros Hn Hm. unfold dealCards.
  eexists _, _, _, _. split; [reflexivity|]. split; [reflexivity|].
  rewrite Z2Nat.inj_add by done.
  rewrite take_take_drop, drop_drop. done.
Qed.

Lemma dealCards_compose_witness :
  exists dealt1 rest1 dealt2 rest2 : list Card,
    dealCards orderedDeck 2 = Returns (dealt1, rest1)
    /\ dealCards rest1 2 = Returns (dealt2, rest2)
    /\ dealCards orderedDeck (2 + 2) = Returns (dealt1 ++ dealt2, rest2).
Proof. apply (dealCards_compose orderedDeck 2 2); lia. Defined.

(** ** The deal that opens a round *)

Lemma deckCard_assigned (card : Card) : deckCard card -> assignedValue card.
Proof.
  unfold deckCard, assignedValue. destruct (decide _); [done|lia].
Qed.

Lemma deckCard_hard (card : Card) :
  deckCard card -> 1 <= hardTotal [card] <= 10.
Proof.
  unfold deckCard, hardTotal. rewrite aceCards_cons, handTotal_cons.
  unfold handTotal, aceCards. simpl.
  destruct (decide (rank card = "A"%string)); lia.
Qed.

Lemma orderedDeck_deckCards : Forall deckCard orderedDeck.
Proof. apply (bool_decide_unpack _). by vm_compute. Qed.

Lemma createDeck_deckCards (rnd : nat -> nat) :
  Forall deckCard (createDeck rnd).
Proof. rewrite createDeck_Permutation. apply orderedDeck_deckCards. Qed.

(** Two cards of a deck score from 4 to 21. *)
Lemma two_card_score (c1 c2 : Card) :
  deckCard c1 -> deckCard c2 ->
  4 <= calculateHandScore [c1; c2] <= 21.
Proof.
  unfold deckCard. intros H1 H2.
  rewrite calculateHandScore_eq, !aceCards_cons, !handTotal_cons.
  unfold handTotal, aceCards. simpl.
  destruct (decide (rank c1 = "A"%string)), (decide (rank c2 = "A"%string));
    simpl;
    repeat (match goal with
            | |- context [?a <? ?b] => destruct (Z.ltb_spec a b)
            end); lia.
Qed.

(** X6. [startNewGame] always returns.  The player holds the first two
    cards of the shuffled deck, the dealer the next two, and the deck keeps
    the other 48 in their order; both scores lie between 4 and 21, so no
    round opens on a bust; the round is open, on the player's turn. *)
Theorem startNewGame_deal (rnd : nat -> nat) :
  exists st : GameState,
    startNewGame rnd = Returns st
    /\ createDeck rnd = playerHand st ++ dealerHand st ++ deck st
    /\ length (playerHand st) = 2%nat
    /\ length (dealerHand st) = 2%nat
    /\ length (deck st) = 48%nat
    /\ playerScore st = calculateHandScore (playerHand st)
    /\ dealerScore st = calculateHandScore (dealerHand st)
    /\ 4 <= playerScore st <= 21
    /\ 4 <= dealerScore st <= 21
    /\ isPlayerTurn st = true
    /\ isGameOver st = false
    /\ gameStatus st = "active"%string.
Proof.
  eexists. split; [apply startNewGame_returns|].
  cbn [deck playerHand dealerHand playerScore dealerScore isPlayerTurn
       isGameOver gameStatus].
  pose proof (createDeck_length rnd) as Hlen.
  pose proof (createDeck_deckCards rnd) as Hcards.
  destruct (createDeck rnd) as [|c1 [|c2 [|c3 [|c4 cards]]]];
    simpl in Hlen; try lia.
  cbn [take drop firstn skipn app length].
  apply Forall_cons in Hcards as [H1 Hcards].
  apply Forall_cons in Hcards as [H2 Hcards].
  apply Forall_cons in Hcards as [H3 Hcards].
  apply Forall_cons in Hcards as [H4 Hcards].
  repeat split; try done; try (rewrite ?drop_0; simpl; lia);
    by apply two_card_score.
Qed.

(** ** What every state of a round satisfies *)

(** X7. In every state of a round the two scores are the scores of the two
    hands: no action leaves a stale score behind. *)
Theorem scores_follow_hands (st : GameState) :
  reachable st ->
  playerScore st = calculateHandScore (playerHand st)
  /\ dealerScore st = calculateHandScore (dealerHand st).
Proof.
  induction 1 as [rnd st Hstart|st st' _ IH Hhit|st st' _ IH Hstand].
  - invert_startNewGame Hstart.
    cbn [playerScore dealerScore playerHand dealerHand]. by split.
  - invert_playerHit Hhit.
    cbn [playerScore dealerScore playerHand dealerHand]. by destruct IH.
  - invert_playerStand Hstand k Hfirst.
    cbn [playerScore dealerScore playerHand dealerHand]. by destruct IH.
Qed.

Lemma scores_follow_hands_witness :
  playerScore firstRound = calculateHandScore (playerHand firstRound)
  /\ dealerScore firstRound = calculateHandScore (dealerHand firstRound).
Proof. exact (scores_follow_hands firstRound firstRound_reachable). Defined.

Lemma outcomeStatus_cases (dealer player : Z) :
  outcomeStatus dealer player
  ∈ ["dealer_bust"; "dealer_win"; "player_win"; "tie"]%string.
Proof.
  unfold outcomeStatus.
  repeat (match goal with
          | |- context [?a <? ?b] => destruct (Z.ltb_spec a b)
          end); set_solver.
Qed.

(** X8. In every state of a round the flag and the status agree: the round
    is open exactly when the status is 'active', an open round has a
    player's score of at most 21, the status 'player_bust' goes with a
    score above 21, and [determineGameResult] has a result exactly for the
    rounds that are over. *)
Theorem status_follows_flag (st : GameState) :
  reachable st ->
  (isGameOver st = false <-> gameStatus st = "active"%string)
  /\ gameStatus st
     ∈ ["active"; "player_bust"; "dealer_bust"; "dealer_win"; "player_win";
        "tie"]%string
  /\ (isGameOver st = false -> playerScore st <= 21)
  /\ (gameStatus st = "player_bust"%string -> 21 < playerScore st)
  /\ (isGameOver st = true <-> is_Some (determineGameResult (gameStatus st))).
Proof.
  intros Hreach.
  destruct Hreach as [rnd st Hstart|st st' _ Hhit|st st' _ Hstand].
  - invert_startNewGame Hstart.
    cbn [isGameOver gameStatus playerScore].
    assert (calculateHandScore (take 2 (createDeck rnd)) <= 21) as Hle.
    { pose proof (createDeck_length rnd) as Hlen.
      pose proof (createDeck_deckCards rnd) as Hcards.
      destruct (createDeck rnd) as [|c1 [|c2 cards]]; simpl in Hlen; try lia.
      apply Forall_cons in Hcards as [H1 Hcards].
      apply Forall_cons in Hcards as [H2 _].
      apply (two_card_score c1 c2 H1 H2). }
    split; [by split|]. split; [apply list_elem_of_here|].
    split; [by intros _|]. split; [discriminate|].
    split; [discriminate|]. intros [? [=]].
  - invert_playerHit Hhit.
    cbn [isGameOver gameStatus playerScore]. unfold hitStatus.
    destruct (Z.ltb_spec 21 (calculateHandScore (playerHand st ++ [card])));
      cbn [fst snd]; repeat split; try done; try lia; try set_solver.
    intros [? [=]].
  - invert_playerStand Hstand k Hfirst.
    cbn [isGameOver gameStatus playerScore].
    pose proof (outcomeStatus_cases
                  (calculateHandScore (dealerHand st ++ take k (deck st)))
                  (playerScore st)) as Hcases.
    rewrite !elem_of_cons in Hcases. rewrite !elem_of_cons.
    destruct Hcases as [->|[->|[->|[->|Hnil]]]];
      [..|by apply elem_of_nil in Hnil];
      repeat split; try done; try (intros; by eexists); tauto.
Qed.

Lemma status_follows_flag_witness :
  (isGameOver firstRound = false <-> gameStatus firstRound = "active"%string)
  /\ (isGameOver firstRound = false -> playerScore firstRound <= 21).
Proof.
  destruct (status_follows_flag firstRound firstRound_reachable)
    as (Hflag & _ & Hopen & _).
  split; assumption.
Defined.

(** ** The dealer's hand in a round *)

Lemma reachable_deckCards (st : GameState) :
  reachable st ->
  Forall deckCard (playerHand st)
  /\ Forall deckCard (dealerHand st)
  /\ Forall deckCard (deck st).
Proof.
  intros Hreach.
  assert (Forall deckCard (allCards st)) as Hall
    by (rewrite (reachable_allCards _ Hreach); apply orderedDeck_deckCards).
  unfold allCards in Hall. rewrite !Forall_app in Hall. tauto.
Qed.

(** A score above 21 has every Ace counted as 1. *)
Lemma bust_score_hard (hand : list Card) :
  21 < calculateHandScore hand -> calculateHandScore hand = hardTotal hand.
Proof.
  rewrite calculateHandScore_eq. unfold hardTotal.
  destruct (adjustAces_reductions (aceCards hand) (handTotal hand))
    as (k & Hk & -> & _ & Hstop).
  intros Hbust. destruct (decide (k < aceCards hand)%nat) as [Hlt|Hge].
  - specialize (Hstop Hlt). lia.
  - by assert (k = aceCards hand) as -> by lia.
Qed.

(** A card drawn on less than 17 leaves the hand at 26 or less. *)
Lemma draw_below_17 (hand : list Card) (card : Card) :
  deckCard card ->
  calculateHandScore hand < 17 ->
  calculateHandScore (hand ++ [card]) <= 26.
Proof.
  intros Hcard Hlow.
  destruct (decide (calculateHandScore (hand ++ [card]) <= 21)) as [|Hbust];
    [lia|].
  rewrite bust_score_hard by lia. rewrite hardTotal_app.
  pose proof (deckCard_hard _ Hcard).
  pose proof (hardTotal_le_score hand). lia.
Qed.

Lemma reachable_dealer_le (st : GameState) :
  reachable st -> calculateHandScore (dealerHand st) <= 26.
Proof.
  induction 1 as [rnd st Hstart|st st' Hreach IH Hhit
                 |st st' Hreach IH Hstand].
  - invert_startNewGame Hstart. cbn [dealerHand].
    pose proof (createDeck_length rnd) as Hlen.
    pose proof (createDeck_deckCards rnd) as Hdeck.
    destruct (createDeck rnd) as [|c1 [|c2 [|c3 [|c4 cards]]]];
      simpl in Hlen; try lia.
    apply Forall_cons in Hdeck as [_ Hdeck].
    apply Forall_cons in Hdeck as [_ Hdeck].
    apply Forall_cons in Hdeck as [H3 Hdeck].
    apply Forall_cons in Hdeck as [H4 _].
    pose proof (two_card_score c3 c4 H3 H4).
    change (take 2 (drop 2 (c1 :: c2 :: c3 :: c4 :: cards))) with [c3; c4].
    lia.
  - by invert_playerHit Hhit.
  - invert_playerStand Hstand k Hfirst. cbn [dealerHand].
    destruct Hfirst as (Hk & Hbefore & _).
    destruct k as [|k].
    + cbn [take]. by rewrite app_nil_r.
    + destruct (lookup_lt_is_Some_2 (deck st) k ltac:(lia)) as [card Hcard].
      rewrite (take_S_r _ _ _ Hcard), app_assoc.
      apply draw_below_17; [|apply Hbefore; lia].
      destruct (reachable_deckCards _ Hreach) as (_ & _ & Hdeck).
      rewrite Forall_lookup in Hdeck. by eapply Hdeck.
Qed.

(** X9. A stand in a round leaves the dealer between 17 and 26, on
    'dealer_bust' exactly when the dealer is above 21. *)
Theorem dealer_final_score (st st' : GameState) :
  reachable st ->
  playerStand st = Returns st' ->
  17 <= dealerScore st' <= 26
  /\ (gameStatus st' = "dealer_bust"%string <-> 21 < dealerScore st').
Proof.
  intros Hreach Hstand.
  pose proof (reachable_dealer_le st' (reachable_stand _ _ Hreach Hstand))
    as Hle.
  invert_playerStand Hstand k Hfirst.
  cbn [dealerScore dealerHand gameStatus] in *.
  destruct Hfirst as (_ & _ & Hstop). split; [lia|].
  unfold outcomeStatus.
  repeat (match goal with
          | |- context [?a <? ?b] => destruct (Z.ltb_spec a b)
          end); split; (done || lia).
Qed.

Lemma dealer_final_score_witness :
  exists st' : GameState,
    playerStand firstRound = Returns st'
    /\ 17 <= dealerScore st' <= 26.
Proof.
  destruct (playerStand_served firstRound
              (reachable_open_served firstRound firstRound_reachable eq_refl))
    as (k & _ & Heq).
  eexists. split; [exact Heq|].
  exact (proj1 (dealer_final_score firstRound _ firstRound_reachable Heq)).
Defined.

(** ** No action fails on an open round *)

(** X10. While a round is open its deck holds at least five cards, and both
    actions return: neither a hit nor a stand runs out of cards. *)
Theorem open_round_never_fails (st : GameState) :
  reachable st ->
  isGameOver st = false ->
  (5 <= length (deck st))%nat
  /\ (exists st' : GameState, playerHit st = Returns st')
  /\ (exists st' : GameState, playerStand st = Returns st').
Proof.
  intros Hreach Hopen.
  pose proof (reachable_length _ Hreach) as Hlen.
  pose proof (reachable_player _ Hreach Hopen) as Hplayer.
  destruct (reachable_assigned _ Hreach) as (_ & Hdealer & _).
  pose proof (hardTotal_length _ Hdealer).
  pose proof (hardTotal_le_score (dealerHand st)).
  pose proof (reachable_dealer_le _ Hreach).
  assert (5 <= length (deck st))%nat as Hdeck by lia.
  split; [done|]. split.
  - destruct (deck st) as [|card rest] eqn:Heq; [simpl in Hdeck; lia|].
    eexists. by apply playerHit_cons.
  - destruct (playerStand_served st (reachable_open_served _ Hreach Hopen))
      as (k & _ & Heq).
    eexists. exact Heq.
Qed.

Lemma open_round_never_fails_witness :
  (5 <= length (deck firstRound))%nat
  /\ (exists st' : GameState, playerHit firstRound = Returns st')
  /\ (exists st' : GameState, playerStand firstRound = Returns st').
Proof.
  exact (open_round_never_fails firstRound firstRound_reachable eq_refl).
Defined.

(** ** Standing twice *)

Lemma dealerLoop_stands (cards hand : list Card) (score : Z) :
  17 <= score -> dealerLoop cards hand score = Returns (cards, hand, score).
Proof.
  intros Hscore. destruct cards; cbn [dealerLoop];
    unfold DEALER_STAND_THRESHOLD;
    by destruct (Z.ltb_spec score 17); [lia|].
Qed.

(** X11. A stand on the state a stand returned draws no card and returns
    that state again. *)
Theorem playerStand_idempotent (st st' : GameState) :
  playerStand st = Returns st' -> playerStand st' = Returns st'.
Proof.
  intros Hstand. invert_playerStand Hstand k Hfirst.
  destruct Hfirst as (_ & _ & Hstop).
  unfold playerStand at 1. cbn [deck dealerHand playerHand playerScore].
  by rewrite (dealerLoop_stands _ _ _ Hstop).
Qed.

Lemma playerStand_idempotent_witness :
  exists st' : GameState,
    playerStand standOnTwenty = Returns st'
    /\ playerStand st' = Returns st'.
Proof.
  eexists. split; [exact playerStand_tie|].
  exact (playerStand_idempotent standOnTwenty _ playerStand_tie).
Defined.

(** ** What a stand is worth *)

(** X12. The round a stand ends always has a result: a win exactly when
    the dealer is above 21 or below the player, a loss exactly when the
    dealer is within 21 and above the player, a tie exactly when the dealer
    is within 21 and level with the player. *)
Theorem playerStand_result (st st' : GameState) :
  playerStand st = Returns st' ->
  determineGameResult (gameStatus st') <> None
  /\ (determineGameResult (gameStatus st') = Some "win"%string
      <-> 21 < dealerScore st' \/ dealerScore st' < playerScore st')
  /\ (determineGameResult (gameStatus st') = Some "loss"%string
      <-> dealerScore st' <= 21 /\ playerScore st' < dealerScore st')
  /\ (determineGameResult (gameStatus st') = Some "tie"%string
      <-> dealerScore st' <= 21 /\ playerScore st' = dealerScore st').
Proof.
  intros Hstand. invert_playerStand Hstand k Hfirst.
  cbn [gameStatus dealerScore playerScore]. unfold outcomeStatus.
  repeat (match goal with
          | |- context [?a <? ?b] => destruct (Z.ltb_spec a b)
          end); cbn; repeat split; try done; try lia; intros; try lia;
    try discriminate.
Qed.

Lemma playerStand_result_witness :
  exists st' : GameState,
    playerStand standOnTwenty = Returns st'
    /\ determineGameResult (gameStatus st') <> None.
Proof.
  eexists. split; [exact playerStand_tie|].
  exact (proj1 (playerStand_result standOnTwenty _ playerStand_tie)).
Defined.

(** ** The banner and the statistics agree *)

(** X13. The frontend's [GameResult] banner and the backend's
    [determineGameResult] classify every status alike: the banner is absent
    exactly when there is no result, it has the class 'result-win' exactly
    on a win, 'result-lose' exactly on a loss and 'result-tie' exactly on a
    tie. *)
Theorem GameResult_agrees (status : string) :
  (Frontend.GameResult status = None <-> determineGameResult status = None)
  /\ (forall cls msg : string,
        Frontend.GameResult status = Some (cls, msg) ->
        (cls = "result-win"%string
         <-> determineGameResult status = Some "win"%string)
        /\ (cls = "result-lose"%string
            <-> determineGameResult status = Some "loss"%string)
        /\ (cls = "result-tie"%string
            <-> determineGameResult status = Some "tie"%string)).
Proof.
  unfold Frontend.GameResult, determineGameResult.
  repeat (case_decide; subst); 
    try (split; [done | intros cls msg [= <- <-]; by repeat split]);
    try (split; [done | intros cls msg [=]]);
    try (exfalso; intuition congruence).
Qed.

(** ** The statistics *)

(** Evaluates [determineGameResult] where its status is known. *)
Ltac eval_result :=
  repeat match goal with
         | |- context [determineGameResult ?status] =>
             let r := eval vm_compute in (determineGameResult status) in
             change (determineGameResult status) with r
         end.

Section Statistics.

Context {number : Type} (percentage : Z -> Z -> number) (zero : number).

Lemma defaultStats_consistent :
  statsConsistent (GameService.defaultStats zero).
Proof. unfold statsConsistent. cbn. lia. Qed.

Lemma recordResult_consistent (result : option string)
    (userStats : @GameService.UserStats number) :
  statsConsistent userStats ->
  statsConsistent (GameService.recordResult percentage result userStats).
Proof.
  unfold statsConsistent, GameService.recordResult.
  intros (Htotal & Hwins & Hlosses & Hties).
  repeat case_decide; cbn; lia.
Qed.

(** X14. A finalized round is counted once, in the row of its user alone:
    the user's [total_games] grows by one (from the defaults when the user
    had no row), every other user's row is untouched, and if in every row
    the total was the sum of wins, losses and ties, with none negative, it
    still is. *)
Theorem finalizeGame_counts_once (userId : Z) (gameState : GameState)
    (table : gmap Z (@GameService.UserStats number)) :
  map_Forall (fun _ userStats => statsConsistent userStats) table ->
  let table' := GameService.finalizeGame percentage zero userId gameState table in
  map_Forall (fun _ userStats => statsConsistent userStats) table'
  /\ (forall other : Z, other <> userId -> table' !! other = table !! other)
  /\ GameService.total_games (statsOf zero userId table')
     = GameService.total_games (statsOf zero userId table) + 1.
Proof.
  intros Hconsistent table'. subst table'. unfold GameService.finalizeGame.
  split; [|split].
  - apply map_Forall_insert_2; [|done].
    apply recordResult_consistent.
    destruct (table !! userId) as [userStats|] eqn:Hrow; cbn.
    + by apply (Hconsistent userId).
    + apply defaultStats_consistent.
  - intros other Hother. by rewrite lookup_insert_ne.
  - unfold statsOf. rewrite lookup_insert_eq. cbn.
    unfold GameService.recordResult. by repeat case_decide.
Qed.

(** X15. [GameService.playerStand] counts the round by the scores it ended
    on: a win when the dealer is above 21 or below the player, a loss when
    the dealer is within 21 and above the player, a tie when the dealer is
    within 21 and level with the player, and nothing else; the state it
    returns is the engine's. *)
Theorem GameService_playerStand_counts (userId : Z) (gameState st' : GameState)
    (table table' : gmap Z (@GameService.UserStats number)) :
  GameService.playerStand percentage zero userId gameState table
  = Returns (st', table') ->
  playerStand gameState = Returns st'
  /\ GameService.total_games (statsOf zero userId table')
     = GameService.total_games (statsOf zero userId table) + 1
  /\ GameService.wins (statsOf zero userId table')
     = GameService.wins (statsOf zero userId table)
       + (if decide (21 < dealerScore st' \/ dealerScore st' < playerScore st')
          then 1 else 0)
  /\ GameService.losses (statsOf zero userId table')
     = GameService.losses (statsOf zero userId table)
       + (if decide (dealerScore st' <= 21
                     /\ playerScore st' < dealerScore st')
          then 1 else 0)
  /\ GameService.ties (statsOf zero userId table')
     = GameService.ties (statsOf zero userId table)
       + (if decide (dealerScore st' <= 21
                     /\ playerScore st' = dealerScore st')
          then 1 else 0).
Proof.
  unfold GameService.playerStand.
  destruct (playerStand gameState) as [updated|e] eqn:Hstand;
    [|discriminate].
  intros Hret. apply Returns_inj in Hret. injection Hret as <- <-.
  split; [done|].
  invert_playerStand Hstand k Hfirst.
  unfold GameService.finalizeGame, statsOf. rewrite lookup_insert_eq.
  cbn [default gameStatus dealerScore playerScore].
  unfold GameService.recordResult, outcomeStatus.
  repeat (match goal with
          | |- context [?a <? ?b] => destruct (Z.ltb_spec a b)
          end); eval_result; cbn; repeat case_decide; cbn;
    repeat split; (lia || congruence).
Qed.

(** X16. [GameService.playerHit] leaves the statistics alone while the
    player is within 21, and counts a loss, and only a loss, when the hit
    takes the player above 21. *)
Theorem GameService_playerHit_counts (userId : Z) (gameState st' : GameState)
    (table table' : gmap Z (@GameService.UserStats number)) :
  GameService.playerHit percentage zero userId gameState table
  = Returns (st', table') ->
  playerHit gameState = Returns st'
  /\ (playerScore st' <= 21 -> table' = table)
  /\ (21 < playerScore st' ->
      GameService.total_games (statsOf zero userId table')
      = GameService.total_games (statsOf zero userId table) + 1
      /\ GameService.losses (statsOf zero userId table')
         = GameService.losses (statsOf zero userId table) + 1
      /\ GameService.wins (statsOf zero userId table')
         = GameService.wins (statsOf zero userId table)
      /\ GameService.ties (statsOf zero userId table')
         = GameService.ties (statsOf zero userId table)).
Proof.
  unfold GameService.playerHit.
  destruct (playerHit gameState) as [updated|e] eqn:Hhit; [|discriminate].
  intros Hret. apply Returns_inj in Hret. injection Hret as <- <-.
  split; [done|].
  invert_playerHit Hhit.
  cbn [isGameOver gameStatus playerScore]. unfold hitStatus.
  destruct (Z.ltb_spec 21 (calculateHandScore (playerHand gameState ++ [card])));
    cbn [fst snd]; (split; [intros; (done || lia)|]); intros Hbust; [|lia].
  unfold GameService.finalizeGame, statsOf. rewrite lookup_insert_eq.
  cbn [default gameStatus]. eval_result.
  unfold GameService.recordResult. by repeat (case_decide; [congruence|]).
Qed.

End Statistics.

Lemma finalizeGame_counts_once_witness :
  GameService.total_games
    (statsOf (0, 1) 7
       (GameService.finalizeGame (fun wins total => (wins, total)) (0, 1) 7
          bustedPlayer ∅))
  = GameService.total_games (statsOf (0, 1) 7 ∅) + 1.
Proof.
  refine (proj2 (proj2 (finalizeGame_counts_once
                          (fun wins total => (wins, total)) (0, 1) 7
                          bustedPlayer ∅ _))).
  apply map_Forall_empty.
Defined.

Lemma GameService_playerStand_counts_witness :
  exists (st' : GameState) (table' : gmap Z (@GameService.UserStats (Z * Z))),
    playerStand standOnTwenty = Returns st'
    /\ GameService.total_games (statsOf (0, 1) 7 table')
       = GameService.total_games (statsOf (0, 1) 7 ∅) + 1.
Proof.
  eexists _, _.
  pose proof (GameService_playerStand_counts
                (fun wins total => (wins, total)) (0, 1) 7 standOnTwenty
                _ ∅ _ eq_refl) as (Hret & Htotal & _).
  split; [exact Hret | exact Htotal].
Defined.

Lemma GameService_playerHit_counts_witness :
  exists (st' : GameState) (table' : gmap Z (@GameService.UserStats (Z * Z))),
    playerHit eighteen = Returns st'
    /\ (21 < playerScore st' ->
        GameService.losses (statsOf (0, 1) 7 table')
        = GameService.losses (statsOf (0, 1) 7 ∅) + 1).
Proof.
  eexists _, _.
  pose proof (GameService_playerHit_counts
                (fun wins total => (wins, total)) (0, 1) 7 eighteen
                _ ∅ _ eq_refl) as (Hret & _ & Hbust).
  split; [exact Hret|]. intros Hlt. exact (proj1 (proj2 (Hbust Hlt))).
Defined.

(** ** No card is dealt twice *)

(** X17. In every state of a round the cards of the two hands and of the
    deck are all different: no card is held twice, and a card in a hand is
    no longer in the deck. *)
Theorem no_card_twice (st : GameState) :
  reachable st ->
  NoDup (face <$> allCards st)
  /\ (forall card : Card,
        card ∈ playerHand st ++ dealerHand st -> card ∉ deck st)
  /\ (forall card : Card, card ∈ playerHand st -> card ∉ dealerHand st).
Proof.
  intros Hreach.
  assert (NoDup (face <$> allCards st)) as Hfaces
    by (rewrite (reachable_allCards _ Hreach); apply orderedDeck_NoDup).
  split; [done|].
  apply NoDup_fmap_1 in Hfaces. unfold allCards in Hfaces.
  apply NoDup_app in Hfaces as (_ & Hplayer & Hrest).
  apply NoDup_app in Hrest as (_ & Hdealer & _).
  split.
  - intros card [Hin|Hin]%elem_of_app.
    + intros Hdeck. apply (Hplayer card Hin). apply elem_of_app. by right.
    + by apply Hdealer.
  - intros card Hin Hdealt. apply (Hplayer card Hin).
    apply elem_of_app. by left.
Qed.

Lemma no_card_twice_witness : NoDup (face <$> allCards firstRound).
Proof. exact (proj1 (no_card_twice firstRound firstRound_reachable)). Defined.
